(** * Query normalisation, symbol inference, classification and step
      narration of the math question solver (app.py)

    The program sits in front of a symbolic algebra engine (SymPy).  The
    engine is not part of the program: it appears here as an interface
    ([Engine]) whose operations may raise, and the program's functions are
    written against that interface, in an exception monad that follows the
    try/except structure of the source.

    Python strings are sequences of Unicode code points; they are modelled
    as lists of code points ([N]). *)

From Stdlib Require Import List NArith ZArith QArith Qreduction Bool Ascii String Lia.
From Stdlib Require Import DecimalString.
From Stdlib Require Import Sorting.Sorted.
Import ListNotations.

Close Scope Q_scope.

(** ** Python strings *)

Module Py.

#[local] Open Scope N_scope.

Definition char := N.
Definition str := list char.

(** An ASCII literal of the source, as a list of code points. *)
Definition lit (s : string) : str :=
  map (fun a => N_of_ascii a) (list_ascii_of_string s).

Definition char_eqb (a b : char) : bool := N.eqb a b.

Fixpoint str_eqb (a b : str) : bool :=
  match a, b with
  | [], [] => true
  | x :: a', y :: b' => char_eqb x y && str_eqb a' b'
  | _, _ => false
  end.

(** [text.replace(old, new)] for a one-character [old], which is the only
    way the source calls it. *)
Fixpoint replace (old : char) (new : str) (s : str) : str :=
  match s with
  | [] => []
  | c :: r => if char_eqb c old then new ++ replace old new r
              else c :: replace old new r
  end.

(** The characters [str.strip()] removes: those for which [str.isspace]
    holds. *)
Definition isspace (c : char) : bool :=
  ((9 <=? c) && (c <=? 13)) || ((28 <=? c) && (c <=? 32))
  || (c =? 133) || (c =? 160) || (c =? 5760)
  || ((8192 <=? c) && (c <=? 8202))
  || (c =? 8232) || (c =? 8233) || (c =? 8239) || (c =? 8287)
  || (c =? 12288).

Fixpoint lstrip (s : str) : str :=
  match s with
  | [] => []
  | c :: r => if isspace c then lstrip r else s
  end.

Definition rstrip (s : str) : str := rev (lstrip (rev s)).

Definition strip (s : str) : str := rstrip (lstrip s).

(** [s.split(sep)] for a one-character separator: the pieces between the
    occurrences of [sep], one more than there are occurrences. *)
Fixpoint split (sep : char) (s : str) : list str :=
  match s with
  | [] => [[]]
  | c :: r =>
      if char_eqb c sep then [] :: split sep r
      else match split sep r with
           | [] => [[c]]
           | p :: ps => (c :: p) :: ps
           end
  end.

Fixpoint startswith (s p : str) : bool :=
  match p, s with
  | [], _ => true
  | x :: p', y :: s' => char_eqb x y && startswith s' p'
  | _ :: _, [] => false
  end.

(** [p in s] for strings: [p] occurs in [s] as a substring. *)
Fixpoint contains (s p : str) : bool :=
  startswith s p ||
  match s with
  | [] => false
  | _ :: r => contains r p
  end.

(** [c in s] for a single character. *)
Definition has_char (s : str) (c : char) : bool := existsb (char_eqb c) s.

Definition count_char (c : char) (s : str) : nat :=
  List.length (filter (char_eqb c) s).

Definition is_upper (c : char) : bool := (65 <=? c) && (c <=? 90).
Definition is_lower (c : char) : bool := (97 <=? c) && (c <=? 122).
Definition is_letter (c : char) : bool := is_upper c || is_lower c.

(** [str.lower()].  The ASCII capitals go to their small letters.  Two
    other code points have a lowercase form that holds an ASCII letter:
    U+0130 (to "i" followed by U+0307) and U+212A (to "k").  Every other
    code point is mapped by Python to code points outside ASCII; they are
    left as they are, since the program only compares the result with
    ASCII text. *)
Definition lower_char (c : char) : str :=
  if is_upper c then [c + 32]
  else if c =? 304 then [105; 775]
  else if c =? 8490 then [107]
  else [c].

Definition lower (s : str) : str := flat_map lower_char s.

(** [s[i:-1]] for a non-negative [i]. *)
Definition slice_to_last (i : nat) (s : str) : str := removelast (skipn i s).

(** [re.findall(r"[A-Za-z]+", s)]: the maximal runs of ASCII letters, from
    left to right.  [cur] holds the letters of the run being read, last
    letter first. *)
Fixpoint findall_letters_from (cur : str) (s : str) : list str :=
  match s with
  | [] => match cur with [] => [] | _ => [rev cur] end
  | c :: r =>
      if is_letter c then findall_letters_from (c :: cur) r
      else match cur with
           | [] => findall_letters_from [] r
           | _ => rev cur :: findall_letters_from [] r
           end
  end.

Definition findall_letters (s : str) : list str := findall_letters_from [] s.

(** The order of Python strings: lexicographic on code points. *)
Fixpoint str_ltb (a b : str) : bool :=
  match a, b with
  | [], [] => false
  | [], _ :: _ => true
  | _ :: _, [] => false
  | x :: a', y :: b' =>
      if N.ltb x y then true
      else if N.ltb y x then false
      else str_ltb a' b'
  end.

(** [sorted(set(l))]: the distinct elements of [l] in increasing order. *)
Fixpoint insert_sorted (x : str) (l : list str) : list str :=
  match l with
  | [] => [x]
  | y :: r =>
      if str_ltb x y then x :: l
      else if str_eqb x y then l
      else y :: insert_sorted x r
  end.

Definition sorted_set (l : list str) : list str :=
  fold_right insert_sorted [] l.

(** [sep.join(l)]. *)
Fixpoint join (sep : str) (l : list str) : str :=
  match l with
  | [] => []
  | [x] => x
  | x :: r => x ++ sep ++ join sep r
  end.

Definition mem (x : str) (l : list str) : bool := existsb (str_eqb x) l.

End Py.

Import Py.

(** ** Values, exceptions and the exception monad *)

(** What a form field or a JSON field may hold: a string, nothing, or a
    number. *)
Inductive pyobj :=
| PStr (s : str)
| PNone
| PNum (z : Z).

(** A raised exception: its class name and its message ([str(e)]). *)
Record exn := mk_exn { exn_type : str; exn_msg : str }.

Inductive res (A : Type) :=
| Ret (a : A)
| Raise (e : exn).
Arguments Ret {A} a.
Arguments Raise {A} e.

Definition bind {A B} (m : res A) (k : A -> res B) : res B :=
  match m with
  | Ret a => k a
  | Raise e => Raise e
  end.

(** [try: m  except Exception as e: h e] *)
Definition try_except {A} (m : res A) (h : exn -> res A) : res A :=
  match m with
  | Ret a => Ret a
  | Raise e => h e
  end.

Declare Scope res_scope.
Delimit Scope res_scope with res.
Notation "x <- m ;; k" := (bind m (fun x => k))
  (at level 61, m at next level, right associativity) : res_scope.
Notation "' p <- m ;; k" := (bind m (fun x => match x with p => k end))
  (at level 61, p pattern, m at next level, right associativity) : res_scope.
#[local] Open Scope res_scope.

(** The symbols [sp.symbols] returns: one symbol, or a tuple of symbols.
    A symbol is identified by its name. *)
Inductive syms :=
| One (name : str)
| Many (names : list str).

(** The variable of differentiation or integration: the text cut out of a
    [diff(expr, var)] form, or a symbol. *)
Inductive var :=
| VarText (s : str)
| VarSym (name : str).

(** The value of [p.degree()]: a Python integer, or the engine's minus
    infinity for the zero polynomial. *)
Inductive deg :=
| DegInt (z : Z)
| DegNegInf.

(** [degree == n] for a Python integer [n]. *)
Definition deg_eqb (d : deg) (n : Z) : bool :=
  match d with
  | DegInt z => Z.eqb z n
  | DegNegInf => false
  end.

(** ** The algebra engine

    The calls the program makes into SymPy.  Each may raise, except the
    renderings to text and the structural test [a == 0]. *)
Class Engine := {
  Expr : Type;
  Polynomial : Type;
  sympify : str -> res Expr;                   (* sp.sympify(text) *)
  Eq : Expr -> Expr -> res Expr;               (* sp.Eq(l, r) *)
  add : Expr -> Expr -> res Expr;              (* l + r *)
  sub : Expr -> Expr -> res Expr;              (* l - r *)
  mul : Expr -> Expr -> res Expr;              (* l * r *)
  div : Expr -> Expr -> res Expr;              (* l / r *)
  pow : Expr -> Expr -> res Expr;              (* l ** r *)
  neg : Expr -> res Expr;                      (* -e *)
  of_int : Z -> Expr;                          (* a Python integer operand *)
  simplify : Expr -> res Expr;                 (* sp.simplify *)
  expand : Expr -> res Expr;                   (* sp.expand *)
  nsimplify : Expr -> res Expr;                (* sp.nsimplify *)
  sqrt : Expr -> res Expr;                     (* sp.sqrt *)
  N : Expr -> res Expr;                        (* sp.N *)
  Poly : Expr -> syms -> res Polynomial;       (* sp.Poly(e, syms) *)
  degree : Polynomial -> res deg;              (* p.degree() *)
  all_coeffs : Polynomial -> res (list Expr);  (* p.all_coeffs() *)
  eq_zero : Expr -> bool;                      (* a == 0 *)
  lt_zero : Expr -> res bool;                  (* the truth value of e < 0 *)
  solve : Expr -> syms -> res (list Expr);     (* sp.solve(eq, syms) *)
  diff : Expr -> var -> res Expr;              (* sp.diff(f, var) *)
  integrate : Expr -> var -> res Expr;         (* sp.integrate(f, var) *)
  pretty : Expr -> str;                        (* sp.pretty(e) *)
  pretty_list : list Expr -> str;              (* sp.pretty(l), l a list *)
  to_str : Expr -> str                         (* str(e), also in f-strings *)
}.

(** The result a narrator hands back: an expression or a list of
    expressions of the engine; [None] is the absent result. *)
Inductive value (X : Type) :=
| VExpr (e : X)
| VList (l : list X).
Arguments VExpr {X} e.
Arguments VList {X} l.

Definition outcome {E : Engine} : Type := option (value Expr) * list str.

(** ** The program *)

(** [sanitize_input]: on a string, replace the caret by the power
    operator, the division sign U+00F7 by a slash, and strip; anything
    that is not a string is returned as it is. *)
Definition normalize (s : str) : str :=
  strip (replace 247%N (lit "/") (replace 94%N (lit "**") s)).

Definition sanitize_input (text : pyobj) : pyobj :=
  match text with
  | PStr s => PStr (normalize s)
  | _ => text
  end.

(** [sp.symbols(names)] on names separated by single spaces, which is how
    [detect_symbols] calls it: a symbol for one name, a tuple of symbols
    for several. *)
Definition symbols (names : str) : syms :=
  match split 32%N names with
  | [n] => One n
  | l => Many l
  end.

Definition funcs : list str :=
  map lit ["sin"; "cos"; "tan"; "log"; "exp"; "sqrt"; "diff"; "integrate";
           "solve"; "simplify"]%string.

(** The list [names] of [detect_symbols] after the filter. *)
Definition detect_names (expr_str : str) : list str :=
  filter (fun n => negb (mem (lower n) funcs))
         (sorted_set (findall_letters expr_str)).

Definition detect_symbols (expr_str : str) : syms :=
  match detect_names expr_str with
  | [] => symbols (lit "x")
  | names => symbols (join (lit " ") names)
  end.

Definition get_primary_symbol (s : syms) : str :=
  match s with
  | Many (n :: _) => n
  | Many [] => lit "x"
  | One n => n
  end.

(** [str(syms)]: the name of a symbol, or the tuple in parentheses. *)
Definition syms_str (s : syms) : str :=
  match s with
  | One n => n
  | Many l => lit "(" ++ join (lit ", ") l ++ lit ")"
  end.

Definition var_str (v : var) : str :=
  match v with
  | VarText s => s
  | VarSym n => n
  end.

(** The message of the [ValueError] that unpacking a list of the wrong
    length raises. *)
Definition nat_str (n : nat) : str :=
  lit (NilZero.string_of_uint (Nat.to_uint n)).

Definition unpack_error (expected got : nat) : exn :=
  mk_exn (lit "ValueError")
    (if Nat.ltb got expected
     then lit "not enough values to unpack (expected " ++ nat_str expected
          ++ lit ", got " ++ nat_str got ++ lit ")"
     else lit "too many values to unpack (expected " ++ nat_str expected
          ++ lit ")").

Section Program.

Context {E : Engine}.

(** The degree-1 branch of [solve_equation_steps] (lines 62 to 74). *)
Definition solve_linear (eq : Expr) (s : syms) (p : Polynomial)
    (steps : list str) : res outcome :=
  coeffs <- all_coeffs p ;;
  match coeffs with
  | [a; b] =>
      let steps := steps ++
        [lit "Linear equation with a=" ++ to_str a ++ lit ", b=" ++ to_str b] in
      if eq_zero a then
        let steps := steps ++
          [lit "Coefficient a is 0 -> no or infinite solutions."] in
        sol <- solve eq s ;;
        Ret (Some (VList sol), steps)
      else
        nb <- neg b ;;
        sol_val <- div nb a ;;
        ns <- nsimplify sol_val ;;
        let steps := steps ++
          [lit "Solve: " ++ syms_str s ++ lit " = -b/a = " ++ to_str ns] in
        r <- simplify sol_val ;;
        Ret (Some (VList [r]), steps)
  | _ => Raise (unpack_error 2 (List.length coeffs))
  end.

(** The degree-2 branch (lines 75 to 87). *)
Definition solve_quadratic (p : Polynomial) (steps : list str) : res outcome :=
  coeffs <- all_coeffs p ;;
  match coeffs with
  | [a; b; c] =>
      let steps := steps ++
        [lit "Quadratic detected with a=" ++ to_str a ++ lit ", b=" ++ to_str b
         ++ lit ", c=" ++ to_str c] in
      b2 <- pow b (of_int 2%Z) ;;
      fa <- mul (of_int 4%Z) a ;;
      fac <- mul fa c ;;
      disc <- sub b2 fac ;;
      let steps := steps ++
        [lit "Discriminant " ++ [916%N] ++ lit " = b" ++ [178%N] ++ lit " - 4ac = "
         ++ pretty disc] in
      negative <- lt_zero disc ;;
      let steps :=
        if negative
        then steps ++ [[916%N] ++ lit " < 0 " ++ [8594%N] ++ lit " complex roots"]
        else steps in
      sqrt_disc <- sqrt disc ;;
      nb <- neg b ;;
      n1 <- add nb sqrt_disc ;;
      d1 <- mul (of_int 2%Z) a ;;
      x1 <- div n1 d1 ;;
      nb' <- neg b ;;
      n2 <- sub nb' sqrt_disc ;;
      d2 <- mul (of_int 2%Z) a ;;
      x2 <- div n2 d2 ;;
      let steps := steps ++
        [lit "Roots: x = (-b " ++ [177%N] ++ lit " " ++ [8730%N; 916%N]
         ++ lit ") / (2a) " ++ [8594%N] ++ lit " " ++ pretty x1 ++ lit ", "
         ++ pretty x2] in
      r1 <- simplify x1 ;;
      r2 <- simplify x2 ;;
      Ret (Some (VList [r1; r2]), steps)
  | _ => Raise (unpack_error 3 (List.length coeffs))
  end.

(** The last branch (lines 88 to 95): the general solver, inside its own
    handler. *)
Definition solve_general (eq : Expr) (s : syms) (steps : list str)
    : res outcome :=
  let steps := steps ++ [lit "Using SymPy general solve"] in
  try_except
    (sol <- solve eq s ;;
     Ret (Some (VList sol), steps ++ [lit "Solutions: " ++ pretty_list sol]))
    (fun e => Ret (None, [lit "Could not solve: " ++ exn_msg e])).

(** The polynomial and its degree, or [None] when building the polynomial
    or asking its degree raises (lines 56 to 60). *)
Definition detect_degree (poly : Expr) (s : syms)
    : option (Polynomial * deg) :=
  match (ex <- expand poly ;; p <- Poly ex s ;; d <- degree p ;; Ret (p, d)) with
  | Ret pd => Some pd
  | Raise _ => None
  end.

Definition equals_message : str :=
  lit "Equation must contain exactly one '=' sign.".

Definition solve_equation_steps (equation_str : str) : res outcome :=
  let normalized := normalize equation_str in
  match split 61%N normalized with
  | [lhs; rhs] =>
      let s := detect_symbols normalized in
      match (lhs_e <- sympify lhs ;; rhs_e <- sympify rhs ;;
             Ret (lhs_e, rhs_e)) with
      | Raise e => Ret (None, [lit "Parsing error: " ++ exn_msg e])
      | Ret (lhs_e, rhs_e) =>
          eq <- Eq lhs_e rhs_e ;;
          d <- sub lhs_e rhs_e ;;
          poly <- simplify d ;;
          ex <- expand poly ;;
          let steps :=
            [lit "Original equation: " ++ pretty eq;
             lit "Simplify to one side: " ++ pretty ex ++ lit " = 0"] in
          match detect_degree poly s with
          | Some (p, degree) =>
              if deg_eqb degree 1 then solve_linear eq s p steps
              else if deg_eqb degree 2 then solve_quadratic p steps
              else solve_general eq s steps
          | None => solve_general eq s steps
          end
      end
  | _ => Ret (None, [equals_message])
  end.

Definition simplify_steps (expr_str : str) : res outcome :=
  let expr_str := normalize expr_str in
  match sympify expr_str with
  | Raise ex => Ret (None, [lit "Parsing error: " ++ exn_msg ex])
  | Ret e =>
      let steps := [lit "Original: " ++ pretty e] in
      simplified <- simplify e ;;
      Ret (Some (VExpr simplified),
           steps ++ [lit "Simplified: " ++ pretty simplified])
  end.

(** What both [derivative_steps] and [integral_steps] do with a call form
    [name(expr, var)]; [prefix] is [name(], and the slice starts after it. *)
Definition unwrap_call (prefix : str) (expr_str : str) (v : option var)
    : str * option var :=
  if startswith (lower (strip expr_str)) prefix then
    let inner := slice_to_last (List.length prefix) (strip expr_str) in
    match split 44%N inner with
    | expr_part :: v' :: _ => (expr_part, Some (VarText (strip v')))
    | expr_part :: [] => (expr_part, None)
    | [] => (expr_str, v)
    end
  else (expr_str, v).

Definition choose_var (expr_part : str) (v : option var) : var :=
  match v with
  | Some v => v
  | None => VarSym (get_primary_symbol (detect_symbols expr_part))
  end.

Definition derivative_steps (expr_str : str) (v : option var) : res outcome :=
  let expr_str := normalize expr_str in
  let '(expr_part, v) := unwrap_call (lit "diff(") expr_str v in
  let v := choose_var expr_part v in
  match sympify expr_part with
  | Raise ex => Ret (None, [lit "Parsing error: " ++ exn_msg ex])
  | Ret f =>
      let steps := [lit "Function: " ++ pretty f;
                    lit "Differentiate w.r.t " ++ var_str v] in
      d <- diff f v ;;
      Ret (Some (VExpr d), steps ++ [lit "Result: " ++ pretty d])
  end.

Definition integral_steps (expr_str : str) (v : option var) : res outcome :=
  let expr_str := normalize expr_str in
  let '(expr_part, v) := unwrap_call (lit "integrate(") expr_str v in
  let v := choose_var expr_part v in
  match sympify expr_part with
  | Raise ex => Ret (None, [lit "Parsing error: " ++ exn_msg ex])
  | Ret f =>
      let steps := [lit "Integrand: " ++ pretty f;
                    lit "Integrate w.r.t " ++ var_str v] in
      try_except
        (I <- integrate f v ;;
         Ret (Some (VExpr I), steps ++ [lit "Result: " ++ pretty I ++ lit " + C"]))
        (fun e => Ret (None, [lit "Could not integrate: " ++ exn_msg e]))
  end.

(** *** The adapters *)

Inductive method := GET | POST.

(** [d.get(key, default)] on a field that may be missing. *)
Definition get_default (field : option str) (default : str) : str :=
  match field with
  | Some v => v
  | None => default
  end.

(** The branch [kind == 'auto'] of [index] (lines 173 to 195). *)
Definition index_auto (query : str) : res outcome :=
  let qlow := lower query in
  if has_char query 61%N then solve_equation_steps query
  else if startswith qlow (lit "diff") || startswith qlow (lit "d/d")
          || contains qlow (lit "d/d")
  then derivative_steps query None
  else if startswith qlow (lit "integrate") || startswith qlow (lit "int(")
          || contains qlow (lit "integrate")
  then integral_steps query None
  else if startswith qlow (lit "simplify") || has_char query 47%N
          || contains qlow (lit "simplify")
  then simplify_steps query
  else
    match (val <- sympify query ;; result <- N val ;; Ret (val, result)) with
    | Ret (val, result) =>
        Ret (Some (VExpr result),
             [lit "Parsed value: " ++ pretty val;
              lit "Numeric evaluation: " ++ to_str result])
    | Raise _ => simplify_steps query
    end.

(** The body of the [try] of [index] (lines 173 to 207).  With a [kind]
    that no branch names, [result] and [steps] keep their initial values. *)
Definition index_dispatch (query kind : str) : res outcome :=
  if str_eqb kind (lit "auto") then index_auto query
  else if str_eqb kind (lit "solve") then solve_equation_steps query
  else if str_eqb kind (lit "diff") then derivative_steps query None
  else if str_eqb kind (lit "integrate") then integral_steps query None
  else if str_eqb kind (lit "simplify") then simplify_steps query
  else Ret (None, []).

(** [index]: the values handed to the template, [(result, steps, query)]. *)
Definition index (m : method) (form_query form_kind : option str)
    : option (value Expr) * list str * str :=
  match m with
  | GET => (None, [], [])
  | POST =>
      let query := normalize (get_default form_query []) in
      let kind := get_default form_kind (lit "auto") in
      match index_dispatch query kind with
      | Ret (result, steps) => (result, steps, query)
      | Raise e => (None, [lit "Error processing: " ++ exn_msg e], query)
      end
  end.

(** The JSON value under ["result"]. *)
Inductive json_result :=
| JNull
| JString (s : str)
| JStrings (l : list str).

(** A JSON answer with its fields, or an error with its HTTP status. *)
Inductive response :=
| Response (result : json_result) (steps : list str)
| ErrorResponse (error : str) (status : nat).

(** [str(out)] for a narrator's result. *)
Definition result_str (out : option (value Expr)) : str :=
  match out with
  | None => lit "None"
  | Some (VExpr e) => to_str e
  | Some (VList l) => lit "[" ++ join (lit ", ") (map to_str l) ++ lit "]"
  end.

(** [[str(s) for s in sol] if sol else None]; the solve narrator returns
    a list or nothing, never a single expression. *)
Definition solution_json (sol : option (value Expr)) : res json_result :=
  match sol with
  | None => Ret JNull
  | Some (VList []) => Ret JNull
  | Some (VList l) => Ret (JStrings (map to_str l))
  | Some (VExpr _) =>
      Raise (mk_exn (lit "TypeError") (lit "object is not iterable"))
  end.

(** The body of the [try] of [api_solve] (lines 225 to 240). *)
Definition api_dispatch (query kind : str) : res response :=
  if has_char query 61%N && mem kind [lit "auto"; lit "solve"] then
    '(sol, steps) <- solve_equation_steps query ;;
    result <- solution_json sol ;;
    Ret (Response result steps)
  else
    let qlow := lower query in
    if mem kind [lit "auto"; lit "diff"]
       && (startswith qlow (lit "diff") || contains qlow (lit "d/d"))
    then '(out, steps) <- derivative_steps query None ;;
         Ret (Response (JString (result_str out)) steps)
    else if mem kind [lit "auto"; lit "integrate"]
       && (startswith qlow (lit "integrate") || startswith qlow (lit "int(")
           || contains qlow (lit "integrate"))
    then '(out, steps) <- integral_steps query None ;;
         Ret (Response (JString (result_str out)) steps)
    else if mem kind [lit "auto"; lit "simplify"]
       && (startswith qlow (lit "simplify") || contains qlow (lit "simplify")
           || has_char query 47%N)
    then '(out, steps) <- simplify_steps query ;;
         Ret (Response (JString (result_str out)) steps)
    else
      val <- sympify query ;;
      n <- N val ;;
      Ret (Response (JString (to_str n)) [lit "Parsed: " ++ to_str val]).

(** [api_solve] (lines 213 to 242) on a JSON body whose query and kind
    are strings or are missing ([None]); a query of another JSON type is
    not covered. *)
Definition api_solve (json_query json_kind : option str) : response :=
  let query := normalize (get_default json_query []) in
  let kind := get_default json_kind (lit "auto") in
  match query with
  | [] => ErrorResponse (lit "No query provided") 400
  | _ =>
      match api_dispatch query kind with
      | Ret r => r
      | Raise e => ErrorResponse (exn_msg e) 500
      end
  end.

End Program.

(** ** A reference engine *)

(** Modelled from the spec: the algebra engine, which is an external
    library (SymPy) and not part of the repository.  The module gives one
    instance of the interface, for a small fragment: expressions built
    from integer literals, one-letter lowercase symbols, [+ - * / **],
    parentheses, [sin(...)] and [cos(...)], with exact rational
    arithmetic and polynomials in normal form; numeric evaluation keeps
    the exact value.  On that fragment it answers as the engine's contract
    says (parsing, simplification, expansion, coefficients highest power
    first, solving, differentiation, integration); the coefficient list
    of a polynomial in several symbols is refused, and a number in the
    place of the variable of differentiation or integration is refused.
    Everything outside the fragment raises [NotImplementedError]. *)
Module RefEngine.

Inductive expr :=
| Num (q : Q)
| Sym (name : str)
| Add (a b : expr)
| Mul (a b : expr)
| Pow (a b : expr)
| Fn (f : str) (arg : expr)
| Rel (l r : expr).

Definition exn_of (type msg : string) : exn := mk_exn (lit type) (lit msg).

Definition outside_fragment {A} : res A :=
  Raise (exn_of "NotImplementedError" "outside the reference fragment").

Definition sympify_error {A} : res A :=
  Raise (exn_of "SympifyError" "could not parse the expression").

(** *** Numbers *)

Definition qz (z : Z) : Q := Qmake z 1.
Definition q_is_zero (q : Q) : bool := Z.eqb (Qnum q) 0.
Definition q_eqb (a b : Q) : bool := Qeq_bool a b.
Definition q_add (a b : Q) : Q := Qred (Qplus a b).
Definition q_mul (a b : Q) : Q := Qred (Qmult a b).
Definition q_inv (a : Q) : Q := Qred (Qinv a).
Definition q_is_int (q : Q) : bool := Pos.eqb (Qden (Qred q)) 1.

Fixpoint q_pow_nat (a : Q) (n : nat) : Q :=
  match n with
  | O => qz 1
  | S n' => q_mul a (q_pow_nat a n')
  end.

(** The square root of a rational that is the square of a rational. *)
Definition q_sqrt (q : Q) : option Q :=
  let r := Qred q in
  let n := Qnum r in
  let d := Zpos (Qden r) in
  let sn := Z.sqrt n in
  let sd := Z.sqrt d in
  if (0 <=? n)%Z && (sn * sn =? n)%Z && (sd * sd =? d)%Z
  then Some (Qred (Qmake sn (Z.to_pos sd)))
  else None.

(** *** Construction with numeric evaluation *)

Definition mk_add (a b : expr) : expr :=
  match a, b with
  | Num x, Num y => Num (q_add x y)
  | Num x, _ => if q_is_zero x then b else Add a b
  | _, Num y => if q_is_zero y then a else Add a b
  | _, _ => Add a b
  end.

Definition mk_mul (a b : expr) : expr :=
  match a, b with
  | Num x, Num y => Num (q_mul x y)
  | Num x, _ => if q_is_zero x then Num (qz 0)
                else if q_eqb x (qz 1) then b else Mul a b
  | _, Num y => if q_is_zero y then Num (qz 0)
                else if q_eqb y (qz 1) then a else Mul a b
  | _, _ => Mul a b
  end.

Definition mk_neg (a : expr) : expr := mk_mul (Num (qz (-1))) a.

Definition mk_sub (a b : expr) : expr := mk_add a (mk_neg b).

Definition mk_pow (a b : expr) : res expr :=
  match a, b with
  | Num x, Num y =>
      if q_is_int y then
        let k := Qnum (Qred y) in
        if (0 <=? k)%Z then Ret (Num (q_pow_nat x (Z.to_nat k)))
        else if q_is_zero x then outside_fragment
        else Ret (Num (q_pow_nat (q_inv x) (Z.to_nat (- k))))
      else Ret (Pow a b)
  | _, Num y => if q_eqb y (qz 1) then Ret a else Ret (Pow a b)
  | _, _ => Ret (Pow a b)
  end.

Definition mk_div (a b : expr) : res expr :=
  match b with
  | Num y => if q_is_zero y then outside_fragment
             else Ret (mk_mul a (Num (q_inv y)))
  | _ => Ret (mk_mul a (Pow b (Num (qz (-1)))))
  end.

(** *** Reading an expression *)

Inductive token :=
| TNum (n : Z)
| TName (s : str)
| TPlus | TMinus | TStar | TSlash | TPower | TLParen | TRParen | TComma.

Inductive pending :=
| PNothing
| PDigits (n : Z)
| PLetters (rev_name : str)
| PStar.

Definition flush (p : pending) : list token :=
  match p with
  | PNothing => []
  | PDigits n => [TNum n]
  | PLetters r => [TName (rev r)]
  | PStar => [TStar]
  end.

Definition is_digit (c : char) : bool := ((48 <=? c) && (c <=? 57))%N.

Definition punct (c : char) : option token :=
  if (c =? 43)%N then Some TPlus
  else if (c =? 45)%N then Some TMinus
  else if (c =? 47)%N then Some TSlash
  else if (c =? 40)%N then Some TLParen
  else if (c =? 41)%N then Some TRParen
  else if (c =? 44)%N then Some TComma
  else None.

Fixpoint tokenize (p : pending) (s : str) : option (list token) :=
  match s with
  | [] => Some (flush p)
  | c :: r =>
      if is_digit c then
        let d := Z.of_N (c - 48) in
        match p with
        | PDigits n => tokenize (PDigits (10 * n + d)) r
        | PLetters _ => None
        | _ => option_map (app (flush p)) (tokenize (PDigits d) r)
        end
      else if is_letter c then
        match p with
        | PLetters n => tokenize (PLetters (c :: n)) r
        | _ => option_map (app (flush p)) (tokenize (PLetters [c]) r)
        end
      else if (c =? 42)%N then
        match p with
        | PStar => option_map (cons TPower) (tokenize PNothing r)
        | _ => option_map (app (flush p)) (tokenize PStar r)
        end
      else if (c =? 32)%N then
        option_map (app (flush p)) (tokenize PNothing r)
      else
        match punct c with
        | Some t => option_map (fun ts => flush p ++ t :: ts) (tokenize PNothing r)
        | None => None
        end
  end.

Definition is_symbol_name (n : str) : bool :=
  match n with
  | [c] => is_lower c
  | _ => false
  end.

Definition is_function_name (n : str) : bool :=
  str_eqb n (lit "sin") || str_eqb n (lit "cos").

(** Python's expression grammar on the fragment; [level] 0 is a sum, 1 a
    product, 2 a signed factor, 3 a power, 4 an atom.  [rest_sum] and
    [rest_product] read the operands that follow the first one. *)
Fixpoint parse (fuel : nat) (level : nat) (ts : list token)
    : res (expr * list token) :=
  match fuel with
  | O => sympify_error
  | S fuel' =>
      match level with
      | 0 =>
          '(a, r) <- parse fuel' 1 ts ;;
          rest_sum fuel' a r
      | 1 =>
          '(a, r) <- parse fuel' 2 ts ;;
          rest_product fuel' a r
      | 2 =>
          match ts with
          | TMinus :: r => '(a, r') <- parse fuel' 2 r ;; Ret (mk_neg a, r')
          | TPlus :: r => parse fuel' 2 r
          | _ => parse fuel' 3 ts
          end
      | 3 =>
          '(a, r) <- parse fuel' 4 ts ;;
          match r with
          | TPower :: r' =>
              '(b, r'') <- parse fuel' 2 r' ;;
              e <- mk_pow a b ;;
              Ret (e, r'')
          | _ => Ret (a, r)
          end
      | _ =>
          match ts with
          | TNum n :: r => Ret (Num (qz n), r)
          | TName f :: TLParen :: r =>
              if is_function_name f then
                '(a, r') <- parse fuel' 0 r ;;
                match r' with
                | TRParen :: r'' => Ret (Fn f a, r'')
                | _ => sympify_error
                end
              else outside_fragment
          | TName n :: r =>
              if is_symbol_name n then Ret (Sym n, r) else outside_fragment
          | TLParen :: r =>
              '(a, r') <- parse fuel' 0 r ;;
              match r' with
              | TRParen :: r'' => Ret (a, r'')
              | _ => sympify_error
              end
          | _ => sympify_error
          end
      end
  end
with rest_sum (fuel : nat) (acc : expr) (ts : list token)
    : res (expr * list token) :=
  match fuel with
  | O => sympify_error
  | S fuel' =>
      match ts with
      | TPlus :: r =>
          '(b, r') <- parse fuel' 1 r ;; rest_sum fuel' (mk_add acc b) r'
      | TMinus :: r =>
          '(b, r') <- parse fuel' 1 r ;; rest_sum fuel' (mk_sub acc b) r'
      | _ => Ret (acc, ts)
      end
  end
with rest_product (fuel : nat) (acc : expr) (ts : list token)
    : res (expr * list token) :=
  match fuel with
  | O => sympify_error
  | S fuel' =>
      match ts with
      | TStar :: r =>
          '(b, r') <- parse fuel' 2 r ;; rest_product fuel' (mk_mul acc b) r'
      | TSlash :: r =>
          '(b, r') <- parse fuel' 2 r ;;
          e <- mk_div acc b ;;
          rest_product fuel' e r'
      | _ => Ret (acc, ts)
      end
  end.

Definition ref_sympify (text : str) : res expr :=
  match tokenize PNothing text with
  | None => outside_fragment
  | Some ts =>
      '(e, r) <- parse (8 * List.length ts + 8) 0 ts ;;
      match r with
      | [] => Ret e
      | _ => sympify_error
      end
  end.

(** *** Polynomials in normal form

    A monomial lists its symbols with their exponents, by increasing
    name; a polynomial lists its monomials with their non-zero
    coefficients, each monomial once. *)

Definition monomial := list (str * nat).
Definition mpoly := list (monomial * Q).

Fixpoint mono_var (n : str) (k : nat) (m : monomial) : monomial :=
  match m with
  | [] => [(n, k)]
  | (n', k') :: r =>
      if str_eqb n n' then (n', k + k') :: r
      else if str_ltb n n' then (n, k) :: m
      else (n', k') :: mono_var n k r
  end.

Definition mono_mul (a b : monomial) : monomial :=
  fold_right (fun nk m => mono_var (fst nk) (snd nk) m) b a.

Fixpoint mono_eqb (a b : monomial) : bool :=
  match a, b with
  | [], [] => true
  | (n, k) :: a', (n', k') :: b' =>
      str_eqb n n' && Nat.eqb k k' && mono_eqb a' b'
  | _, _ => false
  end.

Fixpoint term_add (m : monomial) (c : Q) (p : mpoly) : mpoly :=
  match p with
  | [] => if q_is_zero c then [] else [(m, c)]
  | (m', c') :: r =>
      if mono_eqb m m' then
        let s := q_add c c' in
        if q_is_zero s then r else (m', s) :: r
      else (m', c') :: term_add m c r
  end.

Definition p_add (a b : mpoly) : mpoly :=
  fold_right (fun t acc => term_add (fst t) (snd t) acc) b a.

Definition p_scale (m : monomial) (c : Q) (p : mpoly) : mpoly :=
  fold_right (fun t acc => term_add (mono_mul m (fst t)) (q_mul c (snd t)) acc)
             [] p.

Definition p_mul (a b : mpoly) : mpoly :=
  fold_right (fun t acc => p_add (p_scale (fst t) (snd t) b) acc) [] a.

Fixpoint p_pow (a : mpoly) (n : nat) : mpoly :=
  match n with
  | O => [([], qz 1)]
  | S n' => p_mul a (p_pow a n')
  end.

Fixpoint to_mpoly (e : expr) : option mpoly :=
  match e with
  | Num q => Some (term_add [] (Qred q) [])
  | Sym n => Some [([(n, 1)], qz 1)]
  | Add a b =>
      match to_mpoly a, to_mpoly b with
      | Some p, Some q => Some (p_add p q)
      | _, _ => None
      end
  | Mul a b =>
      match to_mpoly a, to_mpoly b with
      | Some p, Some q => Some (p_mul p q)
      | _, _ => None
      end
  | Pow a (Num k) =>
      if q_is_int k && (0 <=? Qnum (Qred k))%Z then
        match to_mpoly a with
        | Some p => Some (p_pow p (Z.to_nat (Qnum (Qred k))))
        | None => None
        end
      else None
  | _ => None
  end.

Definition mono_expr (m : monomial) : expr :=
  fold_right
    (fun nk acc =>
       let f := match snd nk with
                | 1 => Sym (fst nk)
                | k => Pow (Sym (fst nk)) (Num (qz (Z.of_nat k)))
                end in
       mk_mul f acc)
    (Num (qz 1)) m.

Definition of_mpoly (p : mpoly) : expr :=
  fold_right (fun t acc => mk_add (mk_mul (Num (snd t)) (mono_expr (fst t))) acc)
             (Num (qz 0)) p.

(** The exponent of [g] in a monomial, and the degree of a polynomial in
    [g]. *)
Definition exponent (g : str) (m : monomial) : nat :=
  match find (fun nk => str_eqb g (fst nk)) m with
  | Some nk => snd nk
  | None => O
  end.

Definition degree_in (g : str) (p : mpoly) : deg :=
  match p with
  | [] => DegNegInf
  | _ => DegInt (Z.of_nat (fold_right (fun t d => Nat.max (exponent g (fst t)) d) O p))
  end.

(** The coefficient of [g^k] in a polynomial in [g] alone. *)
Definition coeff_of (g : str) (k : nat) (p : mpoly) : Q :=
  let m := match k with O => [] | _ => [(g, k)] end in
  match find (fun t => mono_eqb m (fst t)) p with
  | Some t => snd t
  | None => qz 0
  end.

Definition only_in (g : str) (p : mpoly) : bool :=
  forallb (fun t => forallb (fun nk => str_eqb g (fst nk)) (fst t)) p.

(** The coefficients of a polynomial in [g] alone, highest power first. *)
Definition dense_in (g : str) (p : mpoly) : list Q :=
  match degree_in g p with
  | DegNegInf => []
  | DegInt d => map (fun k => coeff_of g k p) (rev (seq 0 (S (Z.to_nat d))))
  end.

Fixpoint strip_zeros (l : list Q) : list Q :=
  match l with
  | [] => []
  | c :: r => if q_is_zero c then strip_zeros r else l
  end.

(** A polynomial object: in one generator, with its coefficients from the
    highest power down; or in several, with its degree in the first. *)
Inductive polynomial :=
| PUni (g : str) (coeffs : list Q)
| PMulti (gens : list str) (d : deg).

Definition polynomial_error {A} (msg : string) : res A :=
  Raise (exn_of "PolynomialError" msg).

Definition ref_Poly (e : expr) (s : syms) : res polynomial :=
  match to_mpoly e with
  | None => polynomial_error "not a polynomial in the generators"
  | Some p =>
      match s with
      | One g =>
          if only_in g p then Ret (PUni g (strip_zeros (dense_in g p)))
          else outside_fragment
      | Many [] => outside_fragment
      | Many (g :: gs) => Ret (PMulti (g :: gs) (degree_in g p))
      end
  end.

Definition ref_degree (p : polynomial) : res deg :=
  match p with
  | PUni _ cs =>
      match strip_zeros cs with
      | [] => Ret DegNegInf
      | l => Ret (DegInt (Z.of_nat (List.length l) - 1))
      end
  | PMulti _ d => Ret d
  end.

Definition ref_all_coeffs (p : polynomial) : res (list expr) :=
  match p with
  | PUni _ cs =>
      match strip_zeros cs with
      | [] => Ret [Num (qz 0)]
      | l => Ret (map Num l)
      end
  | PMulti _ _ => polynomial_error "multivariate polynomials not supported"
  end.

(** *** Solving, differentiating, integrating *)

Definition q_neg (a : Q) : Q := Qred (Qopp a).
Definition q_div (a b : Q) : Q := q_mul a (q_inv b).

(** The distinct roots, in increasing order. *)
Definition roots2 (x1 x2 : Q) : list expr :=
  match Qcompare x1 x2 with
  | Datatypes.Eq => [Num x1]
  | Lt => [Num x1; Num x2]
  | Gt => [Num x2; Num x1]
  end.

Definition ref_solve (eq : expr) (s : syms) : res (list expr) :=
  match eq, s with
  | Rel l r, One g =>
      match to_mpoly (mk_sub l r) with
      | Some p =>
          if only_in g p then
            match strip_zeros (dense_in g p) with
            | [] => Ret []
            | [_] => Ret []
            | [a; b] => Ret [Num (q_div (q_neg b) a)]
            | [a; b; c] =>
                let disc := q_add (q_mul b b) (q_neg (q_mul (qz 4) (q_mul a c))) in
                match q_sqrt disc with
                | Some r =>
                    Ret (roots2 (q_div (q_add (q_neg b) (q_neg r)) (q_mul (qz 2) a))
                                (q_div (q_add (q_neg b) r) (q_mul (qz 2) a)))
                | None => outside_fragment
                end
            | _ => outside_fragment
            end
          else outside_fragment
      | None => outside_fragment
      end
  | _, _ => outside_fragment
  end.

Definition ref_sqrt (e : expr) : res expr :=
  match e with
  | Num q =>
      match q_sqrt q with
      | Some r => Ret (Num r)
      | None => Ret (Pow e (Num (Qmake 1 2)))
      end
  | _ => Ret (Pow e (Num (Qmake 1 2)))
  end.

Definition ref_lt_zero (e : expr) : res bool :=
  match e with
  | Num q => Ret (Qnum q <? 0)%Z
  | _ => Raise (exn_of "TypeError" "cannot determine truth value of Relational")
  end.

Definition ref_eq_zero (e : expr) : bool :=
  match e with
  | Num q => q_is_zero q
  | _ => false
  end.

Definition z_str (z : Z) : str := lit (NilZero.string_of_int (Z.to_int z)).

Definition q_str (q : Q) : str :=
  let r := Qred q in
  if Pos.eqb (Qden r) 1 then z_str (Qnum r)
  else z_str (Qnum r) ++ lit "/" ++ z_str (Zpos (Qden r)).

(** The symbol a variable argument stands for; a number in its place makes
    the engine raise [number_error]. *)
Definition resolve_var (v : var) (number_error : Q -> exn) : res str :=
  match v with
  | VarSym n => Ret n
  | VarText s =>
      e <- ref_sympify s ;;
      match e with
      | Sym n => Ret n
      | Num q => Raise (number_error q)
      | _ => outside_fragment
      end
  end.

Fixpoint derive (n : str) (e : expr) : res expr :=
  match e with
  | Num _ => Ret (Num (qz 0))
  | Sym m => Ret (Num (qz (if str_eqb m n then 1 else 0)))
  | Add a b =>
      a' <- derive n a ;; b' <- derive n b ;; Ret (mk_add a' b')
  | Mul a b =>
      a' <- derive n a ;; b' <- derive n b ;;
      Ret (mk_add (mk_mul a' b) (mk_mul a b'))
  | Pow a (Num k) =>
      a' <- derive n a ;;
      p <- mk_pow a (Num (q_add k (qz (-1)))) ;;
      Ret (mk_mul (mk_mul (Num k) p) a')
  | Fn f a =>
      a' <- derive n a ;;
      if str_eqb f (lit "sin") then Ret (mk_mul (Fn (lit "cos") a) a')
      else if str_eqb f (lit "cos") then Ret (mk_mul (mk_neg (Fn (lit "sin") a)) a')
      else outside_fragment
  | _ => outside_fragment
  end.

Definition ref_diff (f : expr) (v : var) : res expr :=
  n <- resolve_var v
         (fun q => mk_exn (lit "ValueError")
                     (lit "First variable cannot be a number: " ++ q_str q)) ;;
  derive n f.

Definition integrate_term (n : str) (t : monomial * Q) : monomial * Q :=
  (mono_mul [(n, 1)] (fst t),
   q_div (snd t) (qz (Z.of_nat (S (exponent n (fst t)))))).

Definition ref_integrate (f : expr) (v : var) : res expr :=
  n <- resolve_var v
         (fun q => mk_exn (lit "ValueError")
                     (lit "Invalid limits given: " ++ q_str q)) ;;
  match to_mpoly f with
  | Some p => Ret (of_mpoly (map (integrate_term n) p))
  | None => outside_fragment
  end.

Definition normal_form (e : expr) : expr :=
  match to_mpoly e with
  | Some p => of_mpoly p
  | None => e
  end.

(** *** Text *)

Definition in_parens (s : str) : str := lit "(" ++ s ++ lit ")".

Fixpoint expr_str (e : expr) : str :=
  match e with
  | Num q => q_str q
  | Sym n => n
  | Add a b => expr_str a ++ lit " + " ++ expr_str b
  | Mul a b =>
      let side x := match x with
                    | Add _ _ => in_parens (expr_str x)
                    | _ => expr_str x
                    end in
      side a ++ lit "*" ++ side b
  | Pow a b =>
      let side x := match x with
                    | Sym _ | Fn _ _ => expr_str x
                    | Num q => if q_is_int q && (0 <=? Qnum q)%Z then q_str q
                               else in_parens (q_str q)
                    | _ => in_parens (expr_str x)
                    end in
      side a ++ lit "**" ++ side b
  | Fn f a => f ++ in_parens (expr_str a)
  | Rel l r => lit "Eq" ++ in_parens (expr_str l ++ lit ", " ++ expr_str r)
  end.

Definition list_str (l : list expr) : str :=
  lit "[" ++ join (lit ", ") (map expr_str l) ++ lit "]".

(** Modelled from the spec: the instance of the engine interface that the
    functions of this module make up. *)
Definition engine : Engine := {|
  Expr := expr;
  Polynomial := polynomial;
  sympify := ref_sympify;
  Eq := fun l r => Ret (Rel l r);
  add := fun a b => Ret (mk_add a b);
  sub := fun a b => Ret (mk_sub a b);
  mul := fun a b => Ret (mk_mul a b);
  div := mk_div;
  pow := mk_pow;
  neg := fun a => Ret (mk_neg a);
  of_int := fun z => Num (qz z);
  simplify := fun e => Ret (normal_form e);
  expand := fun e => Ret (normal_form e);
  nsimplify := fun e => Ret (normal_form e);
  sqrt := ref_sqrt;
  N := fun e => Ret (normal_form e);
  Poly := ref_Poly;
  degree := ref_degree;
  all_coeffs := ref_all_coeffs;
  eq_zero := ref_eq_zero;
  lt_zero := ref_lt_zero;
  solve := ref_solve;
  diff := ref_diff;
  integrate := ref_integrate;
  pretty := expr_str;
  pretty_list := list_str;
  to_str := expr_str
|}.

End RefEngine.

(** ** Notions used in the statements *)

(** The order [sorted] uses. *)
Definition str_lt (a b : str) : Prop := str_ltb a b = true.

Definition letters (t : str) : Prop := Forall (fun c => is_letter c = true) t.

(** Nothing, or a first character that is not white space. *)
Definition no_space_first (s : str) : Prop :=
  match s with
  | [] => True
  | c :: _ => isspace c = false
  end.

(** Nothing, or a first character that is not a letter. *)
Definition no_letter_first (s : str) : Prop :=
  match s with
  | [] => True
  | c :: _ => is_letter c = false
  end.

(** [t] is a maximal run of ASCII letters of [s]: a non-empty stretch of
    letters with no letter just before it and none just after it. *)
Definition maximal_run (s t : str) : Prop :=
  t <> [] /\ letters t /\
  exists pre post, s = pre ++ t ++ post
                   /\ no_letter_first (rev pre) /\ no_letter_first post.

(** The lowercase form of [t] is a reserved function name. *)
Definition reserved (t : str) : Prop := In (lower t) funcs.

(** The operation modes the adapters name. *)
Definition modes : list str :=
  map lit ["auto"; "solve"; "diff"; "integrate"; "simplify"]%string.

(** The result part of what a narrator does. *)
Definition result_of {E : Engine} (r : res outcome) : res (option (value Expr)) :=
  match r with
  | Ret (v, _) => Ret v
  | Raise e => Raise e
  end.

(** The steps of what a narrator returns; none when it raises. *)
Definition steps_of {E : Engine} (r : res outcome) : list str :=
  match r with
  | Ret (_, steps) => steps
  | Raise _ => []
  end.

Section Statements.

Context {E : Engine}.

(** The equation object, the polynomial and the degree that
    [solve_equation_steps] arrives at for an input, when it gets that
    far. *)
Definition detected (equation_str : str) : option (Expr * Polynomial * deg) :=
  let normalized := normalize equation_str in
  match split 61%N normalized with
  | [lhs; rhs] =>
      match (lhs_e <- sympify lhs ;; rhs_e <- sympify rhs ;;
             eq <- Eq lhs_e rhs_e ;; d <- sub lhs_e rhs_e ;;
             poly <- simplify d ;; _ <- expand poly ;; Ret (eq, poly)) with
      | Ret (eq, poly) =>
          match detect_degree poly (detect_symbols normalized) with
          | Some (p, d) => Some (eq, p, d)
          | None => None
          end
      | Raise _ => None
      end
  | _ => None
  end.

End Statements.

(** ** Notions used in the further properties *)


(** Text that normalisation leaves as it is: no caret, no division sign,
    no white space at either end. *)
Definition normal_text (s : str) : Prop :=
  ~ In 94%N s /\ ~ In 247%N s /\ no_space_first s /\ no_space_first (rev s).

(** The step the degree-2 branch adds for a negative discriminant. *)
Definition complex_roots_step : str :=
  [916%N] ++ lit " < 0 " ++ [8594%N] ++ lit " complex roots".

(** The textual cue of each mode, as [index] tests it in its auto branch
    (lines 175 to 184). *)
Definition solve_cue (query : str) : bool := has_char query 61%N.

Definition diff_cue (query : str) : bool :=
  let qlow := lower query in
  startswith qlow (lit "diff") || startswith qlow (lit "d/d")
  || contains qlow (lit "d/d").

Definition integrate_cue (query : str) : bool :=
  let qlow := lower query in
  startswith qlow (lit "integrate") || startswith qlow (lit "int(")
  || contains qlow (lit "integrate").

Definition simplify_cue (query : str) : bool :=
  let qlow := lower query in
  startswith qlow (lit "simplify") || has_char query 47%N
  || contains qlow (lit "simplify").

Definition has_cue (query : str) : bool :=
  solve_cue query || diff_cue query || integrate_cue query
  || simplify_cue query.


Section FurtherStatements.

Context {E : Engine}.

(** The JSON reply [api_solve] makes of a narrator's outcome: a list of
    texts for the solve narrator, one text for the others. *)
Definition reply_of (solving : bool) (o : outcome) : res response :=
  if solving then
    result <- solution_json (fst o) ;;
    Ret (Response result (snd o))
  else Ret (Response (JString (result_str (fst o))) (snd o)).

(** The JSON value for the result of the solve narrator: the texts of a
    non-empty list of solutions, and null otherwise. *)
Definition solutions_json (sol : option (value Expr)) : json_result :=
  match sol with
  | Some (VList (x :: l)) => JStrings (map to_str (x :: l))
  | _ => JNull
  end.

(** The last lines of [api_solve]'s [try]: parse and evaluate the query
    (lines 239 to 240). *)
Definition api_evaluate (query : str) : res response :=
  val <- sympify query ;;
  n <- N val ;;
  Ret (Response (JString (to_str n)) [lit "Parsed: " ++ to_str val]).

(** The discriminant as the degree-2 branch computes it (line 78). *)
Definition discriminant (a b c : Expr) : res Expr :=
  b2 <- pow b (of_int 2) ;;
  fa <- mul (of_int 4) a ;;
  fac <- mul fa c ;;
  sub b2 fac.

End FurtherStatements.

(** ** Notions used in the proofs on the reference engine

    The invariants of the reference engine's polynomials, and the two
    pieces of [mono_expr] and [of_mpoly] that the proofs name. *)

Section ReferenceNormalForms.

Import RefEngine.









End ReferenceNormalForms.

(** * Properties *)

(** ** Strings *)

Section StringFacts.

#[local] Open Scope N_scope.

Lemma char_eqb_eq (a b : char) : char_eqb a b = true <-> a = b.
Proof. apply N.eqb_eq. Qed.

Lemma char_eqb_neq (a b : char) : char_eqb a b = false <-> a <> b.
Proof. apply N.eqb_neq. Qed.

Lemma str_eqb_eq (a b : str) : str_eqb a b = true <-> a = b.
Proof.
  revert b; induction a as [|x a IH]; intros [|y b]; simpl; split;
    try congruence; try reflexivity.
  - intros H. apply andb_true_iff in H as [Hx Hr].
    apply char_eqb_eq in Hx. apply IH in Hr. congruence.
  - intros H. inversion H; subst. apply andb_true_iff. split.
    + now apply char_eqb_eq.
    + now apply IH.
Qed.

Lemma str_eqb_refl (a : str) : str_eqb a a = true.
Proof. now apply str_eqb_eq. Qed.

Lemma mem_In (x : str) (l : list str) : mem x l = true <-> In x l.
Proof.
  unfold mem. rewrite existsb_exists. split.
  - intros [y [Hy Hxy]]. apply str_eqb_eq in Hxy. now subst.
  - intros H. exists x. split; [assumption | apply str_eqb_refl].
Qed.

(** *** replace *)

Lemma replace_absent (old : char) (new s : str) :
  ~ In old s -> replace old new s = s.
Proof.
  induction s as [|c r IH]; simpl; intros H; [reflexivity|].
  destruct (char_eqb c old) eqn:Hc.
  - apply char_eqb_eq in Hc. exfalso. apply H. now left.
  - f_equal. apply IH. intros Hin. apply H. now right.
Qed.

Lemma In_replace (old : char) (new s : str) (c : char) :
  In c (replace old new s) -> In c new \/ (In c s /\ c <> old).
Proof.
  induction s as [|x r IH]; simpl; [tauto|].
  destruct (char_eqb x old) eqn:Hx.
  - rewrite in_app_iff. intros [H | H]; [now left|].
    destruct (IH H) as [H' | [H' Hne]]; [now left | right; tauto].
  - apply char_eqb_neq in Hx. simpl. intros [H | H].
    + subst. right. tauto.
    + destruct (IH H) as [H' | [H' Hne]]; [now left | right; tauto].
Qed.

Lemma count_char_app (c : char) (a b : str) :
  count_char c (a ++ b) = (count_char c a + count_char c b)%nat.
Proof. unfold count_char. now rewrite filter_app, length_app. Qed.

Lemma count_char_absent (c : char) (s : str) :
  ~ In c s -> count_char c s = O.
Proof.
  unfold count_char. induction s as [|x r IH]; simpl; intros H; [reflexivity|].
  destruct (char_eqb c x) eqn:Hx.
  - apply char_eqb_eq in Hx. exfalso. apply H. now left.
  - apply IH. intros Hin. apply H. now right.
Qed.

Lemma count_char_replace (c old : char) (new s : str) :
  c <> old -> ~ In c new ->
  count_char c (replace old new s) = count_char c s.
Proof.
  intros Hne Hnew. induction s as [|x r IH]; simpl; [reflexivity|].
  destruct (char_eqb x old) eqn:Hx.
  - apply char_eqb_eq in Hx. subst x.
    rewrite count_char_app, (count_char_absent _ _ Hnew), IH. simpl.
    unfold count_char at 2. simpl.
    destruct (char_eqb c old) eqn:Hc; [|reflexivity].
    apply char_eqb_eq in Hc. contradiction.
  - unfold count_char in *. simpl. destruct (char_eqb c x); simpl; now rewrite IH.
Qed.

(** *** strip *)

Lemma lstrip_no_space_first (s : str) : no_space_first (lstrip s).
Proof.
  induction s as [|c r IH]; simpl; [exact I|].
  destruct (isspace c) eqn:Hc; [exact IH | exact Hc].
Qed.

Lemma lstrip_fixed (s : str) : no_space_first s -> lstrip s = s.
Proof. destruct s as [|c r]; simpl; [reflexivity|]. now intros ->. Qed.

(** [lstrip] removes a stretch of white space at the front. *)
Lemma lstrip_split (s : str) :
  exists pre, s = pre ++ lstrip s /\ Forall (fun c => isspace c = true) pre.
Proof.
  induction s as [|c r [pre [Heq Hpre]]]; simpl.
  - exists []. split; [reflexivity | constructor].
  - destruct (isspace c) eqn:Hc.
    + exists (c :: pre). split; [simpl; now f_equal | now constructor].
    + exists []. split; [reflexivity | constructor].
Qed.

Lemma rstrip_split (s : str) :
  exists post, s = rstrip s ++ post /\ Forall (fun c => isspace c = true) post.
Proof.
  unfold rstrip. destruct (lstrip_split (rev s)) as [pre [Heq Hpre]].
  exists (rev pre). split.
  - rewrite <- rev_app_distr, <- Heq. now rewrite rev_involutive.
  - now apply Forall_rev.
Qed.

Lemma rstrip_keeps_first (s : str) :
  no_space_first s -> no_space_first (rstrip s).
Proof.
  intros H. destruct (rstrip_split s) as [post [Heq _]].
  destruct (rstrip s) as [|c r]; [exact I|].
  rewrite Heq in H. exact H.
Qed.

Lemma rstrip_idempotent (s : str) : rstrip (rstrip s) = rstrip s.
Proof.
  unfold rstrip. rewrite rev_involutive.
  now rewrite (lstrip_fixed _ (lstrip_no_space_first (rev s))).
Qed.

Lemma strip_idempotent (s : str) : strip (strip s) = strip s.
Proof.
  unfold strip.
  rewrite (lstrip_fixed _ (rstrip_keeps_first _ (lstrip_no_space_first s))).
  apply rstrip_idempotent.
Qed.

Lemma In_lstrip (c : char) (s : str) : In c (lstrip s) -> In c s.
Proof.
  destruct (lstrip_split s) as [pre [Heq _]]. intros H.
  rewrite Heq. apply in_or_app. now right.
Qed.

Lemma In_strip (c : char) (s : str) : In c (strip s) -> In c s.
Proof.
  unfold strip. intros H. apply In_lstrip.
  destruct (rstrip_split (lstrip s)) as [post [Heq _]].
  rewrite Heq. apply in_or_app. now left.
Qed.

Lemma count_char_spaces (c : char) (l : str) :
  isspace c = false -> Forall (fun x => isspace x = true) l ->
  count_char c l = O.
Proof.
  intros Hc Hl. apply count_char_absent. intros Hin.
  rewrite Forall_forall in Hl. apply Hl in Hin. congruence.
Qed.

Lemma count_char_strip (c : char) (s : str) :
  isspace c = false -> count_char c (strip s) = count_char c s.
Proof.
  intros Hc. unfold strip.
  destruct (lstrip_split s) as [pre [Heq Hpre]].
  destruct (rstrip_split (lstrip s)) as [post [Heq' Hpost]].
  rewrite Heq at 2. rewrite Heq' at 2.
  rewrite !count_char_app.
  rewrite (count_char_spaces _ _ Hc Hpre), (count_char_spaces _ _ Hc Hpost). lia.
Qed.

(** *** split *)

Lemma split_length (sep : char) (s : str) :
  List.length (split sep s) = S (count_char sep s).
Proof.
  unfold count_char, char_eqb. induction s as [|c r IH]; [reflexivity|].
  cbn [split filter]. unfold char_eqb. rewrite (N.eqb_sym sep c).
  destruct (N.eqb c sep).
  - cbn [List.length]. now f_equal.
  - destruct (split sep r); [discriminate | exact IH].
Qed.

End StringFacts.

(** ** Normalisation *)

Lemma normalize_clean (s : str) :
  ~ In 94%N (normalize s) /\ ~ In 247%N (normalize s).
Proof.
  unfold normalize. split; intros H; apply In_strip in H;
    apply In_replace in H.
  - destruct H as [H | [H _]]; [vm_compute in H; intuition discriminate|].
    apply In_replace in H.
    destruct H as [H | [_ H]]; [vm_compute in H; intuition discriminate|].
    now apply H.
  - destruct H as [H | [_ H]]; [vm_compute in H; intuition discriminate|].
    now apply H.
Qed.

Lemma normalize_idempotent (s : str) : normalize (normalize s) = normalize s.
Proof.
  destruct (normalize_clean s) as [H94 H247].
  unfold normalize at 1.
  rewrite (replace_absent _ _ _ H94), (replace_absent _ _ _ H247).
  unfold normalize. apply strip_idempotent.
Qed.

(** C5.  Normalisation is idempotent: normalising what [sanitize_input]
    returns gives it back, for every string, and for what is not a string
    (which is returned as it is). *)
Theorem sanitize_input_idempotent (text : pyobj) :
  sanitize_input (sanitize_input text) = sanitize_input text.
Proof.
  destruct text as [s | | z]; simpl; try reflexivity.
  now rewrite normalize_idempotent.
Qed.

Lemma normalize_count_equals (s : str) :
  count_char 61%N (normalize s) = count_char 61%N s.
Proof.
  unfold normalize.
  rewrite count_char_strip by reflexivity.
  rewrite count_char_replace;
    [| discriminate | vm_compute; intuition discriminate].
  rewrite count_char_replace;
    [| discriminate | vm_compute; intuition discriminate].
  reflexivity.
Qed.

(** ** Symbol detection *)

Section FindallFacts.

Lemma findall_from_acc (cur s : str) :
  letters cur ->
  findall_letters_from cur s = findall_letters (rev cur ++ s).
Proof.
  revert s. induction cur as [|c cur IH]; intros s H; [reflexivity|].
  inversion H as [|? ? Hc Hcur]; subst.
  simpl rev. rewrite <- app_assoc. simpl app.
  rewrite <- (IH (c :: s) Hcur). simpl. now rewrite Hc.
Qed.

Lemma findall_skip (c : char) (r : str) :
  is_letter c = false -> findall_letters (c :: r) = findall_letters r.
Proof. intros H. unfold findall_letters. simpl. now rewrite H. Qed.

Lemma findall_from_block (l r cur : str) :
  letters l -> no_letter_first r -> cur <> [] \/ l <> [] ->
  findall_letters_from cur (l ++ r) = (rev cur ++ l) :: findall_letters r.
Proof.
  revert cur. induction l as [|x l IH]; intros cur Hl Hr Hne.
  - rewrite app_nil_r. simpl.
    destruct Hne as [Hne | Hne]; [|congruence].
    destruct r as [|c r]; simpl.
    + destruct cur; [congruence | reflexivity].
    + simpl in Hr. rewrite Hr. rewrite (findall_skip _ _ Hr).
      destruct cur; [congruence | reflexivity].
  - inversion Hl as [|? ? Hx Hl']; subst. simpl. rewrite Hx.
    rewrite (IH (x :: cur) Hl' Hr) by (left; discriminate).
    simpl. now rewrite <- app_assoc.
Qed.

Lemma findall_block (l r : str) :
  l <> [] -> letters l -> no_letter_first r ->
  findall_letters (l ++ r) = l :: findall_letters r.
Proof.
  intros Hne Hl Hr. unfold findall_letters at 1.
  now rewrite (findall_from_block l r [] Hl Hr (or_intror Hne)).
Qed.

Lemma letters_span (s : str) :
  exists l r, s = l ++ r /\ letters l /\ no_letter_first r.
Proof.
  induction s as [|c s [l [r [Heq [Hl Hr]]]]].
  - exists [], []. repeat split; constructor.
  - destruct (is_letter c) eqn:Hc.
    + exists (c :: l), r. subst. repeat split; [now constructor | exact Hr].
    + exists [], (c :: s). repeat split; [constructor | exact Hc].
Qed.

Lemma no_letter_first_app (a b : str) :
  a <> [] -> (no_letter_first (a ++ b) <-> no_letter_first a).
Proof. destruct a; [congruence | reflexivity]. Qed.

Lemma letters_first (t post : str) :
  t <> [] -> letters t -> ~ no_letter_first (t ++ post).
Proof.
  destruct t as [|c t]; [congruence|]. intros _ H Hn.
  inversion H; subst. simpl in Hn. congruence.
Qed.

Lemma maximal_run_cons (c : char) (s t : str) :
  is_letter c = false -> (maximal_run (c :: s) t <-> maximal_run s t).
Proof.
  intros Hc. split; intros (Hne & Hl & pre & post & Heq & Hpre & Hpost).
  - destruct pre as [|x pre].
    + exfalso. simpl in Heq. destruct t as [|y t]; [congruence|].
      inversion Hl; subst. simpl in Heq. congruence.
    + simpl in Heq. inversion Heq; subst.
      repeat split; try assumption. exists pre, post.
      repeat split; try assumption.
      destruct (rev pre) as [|y q] eqn:Hrev; [exact I|].
      simpl in Hpre. rewrite Hrev in Hpre. exact Hpre.
  - repeat split; try assumption. exists (c :: pre), post.
    repeat split; [simpl; now f_equal | | assumption].
    simpl. destruct (rev pre) as [|y q] eqn:Hrev; [exact Hc | exact Hpre].
Qed.

(** After a block of letters that a non-letter ends, the runs of the rest
    are the other runs of the whole. *)
Lemma maximal_run_after_block (l r t : str) :
  letters l -> l <> [] -> no_letter_first r ->
  maximal_run r t -> maximal_run (l ++ r) t.
Proof.
  intros Hl Hne Hr (Htne & Ht & pre & post & Heq & Hpre & Hpost).
  repeat split; try assumption. exists (l ++ pre), post.
  repeat split; [subst; now rewrite <- app_assoc | | assumption].
  rewrite rev_app_distr.
  destruct pre as [|x pre].
  - exfalso. subst r. now apply (letters_first t post Htne Ht).
  - apply no_letter_first_app; [|exact Hpre].
    simpl. destruct (rev pre); discriminate.
Qed.

Lemma findall_sound_fuel (n : nat) :
  forall s t, (List.length s <= n)%nat ->
              In t (findall_letters s) -> maximal_run s t.
Proof.
  induction n as [|n IH]; intros s t Hlen Hin.
  - destruct s; [contradiction | simpl in Hlen; lia].
  - destruct (letters_span s) as [l [r [Heq [Hl Hr]]]].
    destruct l as [|x l].
    + simpl in Heq. subst r. destruct s as [|c s]; [contradiction|].
      simpl in Hr. rewrite (findall_skip _ _ Hr) in Hin.
      apply (maximal_run_cons c s t Hr). apply IH; [simpl in Hlen; lia | exact Hin].
    + subst s. rewrite (findall_block (x :: l) r) in Hin;
        [| discriminate | assumption | assumption].
      destruct Hin as [Hin | Hin].
      * subst t. repeat split; [discriminate | assumption |].
        exists [], r. split; [reflexivity | split; [exact I | exact Hr]].
      * apply maximal_run_after_block; [assumption | discriminate | assumption |].
        apply IH; [|exact Hin]. rewrite length_app in Hlen. simpl in Hlen. lia.
Qed.

Lemma findall_complete_fuel (n : nat) :
  forall s t, (List.length s <= n)%nat ->
              maximal_run s t -> In t (findall_letters s).
Proof.
  induction n as [|n IH]; intros s t Hlen Hrun.
  - destruct Hrun as (Hne & _ & pre & post & Heq & _).
    destruct s; [|simpl in Hlen; lia].
    destruct pre; [|discriminate]. destruct t; [congruence | discriminate].
  - destruct s as [|c s].
    + destruct Hrun as (Hne & _ & pre & post & Heq & _).
      destruct pre; [|discriminate]. destruct t; [congruence | discriminate].
    + destruct (is_letter c) eqn:Hc.
      * destruct Hrun as (Hne & Ht & pre & post & Heq & Hpre & Hpost).
        destruct pre as [|x pre].
        -- simpl in Heq. rewrite Heq.
           rewrite (findall_block t post Hne Ht Hpost). now left.
        -- destruct (letters_span (x :: pre)) as [l [r [Hsp [Hl Hr]]]].
           assert (Hx : x = c) by (simpl in Heq; congruence). subst x.
           destruct l as [|y l].
           { simpl in Hsp. subst r. simpl in Hr. congruence. }
           destruct r as [|d r].
           { exfalso. rewrite app_nil_r in Hsp. rewrite Hsp in Hpre.
             assert (Hrl : letters (rev (y :: l))) by now apply Forall_rev.
             destruct (rev (y :: l)) as [|z q] eqn:Hrev.
             - apply (f_equal (@List.length _)) in Hrev.
               rewrite length_rev in Hrev. discriminate.
             - inversion Hrl; subst. simpl in Hpre. congruence. }
           rewrite Heq, Hsp, <- app_assoc.
           rewrite (findall_block (y :: l) ((d :: r) ++ t ++ post));
             [| discriminate | assumption | exact Hr].
           right. apply IH.
           ++ apply (f_equal (@List.length _)) in Heq.
              rewrite Hsp, <- app_assoc, length_app in Heq.
              simpl in Heq, Hlen. simpl. lia.
           ++ repeat split; try assumption. exists (d :: r), post.
              repeat split; [| assumption].
              rewrite Hsp, rev_app_distr in Hpre.
              apply (no_letter_first_app (rev (d :: r)) (rev (y :: l))); [|exact Hpre].
              simpl. destruct (rev r); discriminate.
      * rewrite (findall_skip _ _ Hc). apply IH; [simpl in Hlen; lia|].
        now apply (maximal_run_cons c s t Hc).
Qed.

Lemma findall_letters_spec (s t : str) :
  In t (findall_letters s) <-> maximal_run s t.
Proof.
  split.
  - apply (findall_sound_fuel (List.length s)). lia.
  - apply (findall_complete_fuel (List.length s)). lia.
Qed.

End FindallFacts.

Section SortedSetFacts.


Lemma str_ltb_trans (a b c : str) :
  str_ltb a b = true -> str_ltb b c = true -> str_ltb a c = true.
Proof.
  revert b c. induction a as [|x a IH]; intros [|y b] [|z c]; simpl;
    try congruence.
  destruct (N.ltb_spec x y), (N.ltb_spec y x), (N.ltb_spec y z),
    (N.ltb_spec z y), (N.ltb_spec x z), (N.ltb_spec z x);
    try congruence; try lia.
  apply IH.
Qed.

Lemma str_ltb_total (a b : str) :
  str_ltb a b = false -> str_eqb a b = false -> str_ltb b a = true.
Proof.
  revert b. induction a as [|x a IH]; intros [|y b]; simpl; try congruence.
  unfold char_eqb.
  destruct (N.ltb_spec x y), (N.ltb_spec y x), (N.eqb_spec x y);
    try congruence; try lia.
  simpl. apply IH.
Qed.

Lemma In_insert_sorted (x t : str) (l : list str) :
  In t (insert_sorted x l) <-> t = x \/ In t l.
Proof.
  induction l as [|y r IH]; simpl.
  - intuition congruence.
  - destruct (str_ltb x y); [simpl; intuition congruence|].
    destruct (str_eqb x y) eqn:He.
    + apply str_eqb_eq in He. subst. simpl. intuition congruence.
    + simpl. rewrite IH. intuition congruence.
Qed.

Lemma insert_sorted_sorted (x : str) (l : list str) :
  StronglySorted str_lt l -> StronglySorted str_lt (insert_sorted x l).
Proof.
  induction l as [|y r IH]; simpl; intros H.
  - constructor; constructor.
  - inversion H as [|? ? Hr Hy]; subst.
    destruct (str_ltb x y) eqn:Hlt.
    + constructor; [exact H|]. constructor; [exact Hlt|].
      rewrite Forall_forall in *. intros z Hz.
      exact (str_ltb_trans x y z Hlt (Hy z Hz)).
    + destruct (str_eqb x y) eqn:He; [exact H|].
      constructor; [now apply IH|].
      rewrite Forall_forall in *. intros z Hz.
      apply In_insert_sorted in Hz. destruct Hz as [-> | Hz].
      * now apply str_ltb_total.
      * now apply Hy.
Qed.

Lemma In_sorted_set (t : str) (l : list str) :
  In t (sorted_set l) <-> In t l.
Proof.
  induction l as [|x l IH]; simpl; [reflexivity|].
  rewrite In_insert_sorted, IH. intuition congruence.
Qed.

Lemma sorted_set_sorted (l : list str) : StronglySorted str_lt (sorted_set l).
Proof.
  induction l as [|x l IH]; simpl; [constructor|].
  now apply insert_sorted_sorted.
Qed.

Lemma filter_sorted (f : str -> bool) (l : list str) :
  StronglySorted str_lt l -> StronglySorted str_lt (filter f l).
Proof.
  induction 1 as [|x l Hl IH Hx]; simpl; [constructor|].
  destruct (f x); [|exact IH].
  constructor; [exact IH|].
  rewrite Forall_forall in *. intros z Hz.
  apply filter_In in Hz. now apply Hx.
Qed.

Lemma split_no_sep (sep : char) (x : str) :
  ~ In sep x -> split sep x = [x].
Proof.
  induction x as [|c x IH]; simpl; intros H; [reflexivity|].
  destruct (char_eqb c sep) eqn:Hc.
  - apply char_eqb_eq in Hc. exfalso. apply H. now left.
  - rewrite IH; [reflexivity|]. intros Hin. apply H. now right.
Qed.

Lemma split_app_sep (sep : char) (x rest : str) :
  ~ In sep x -> split sep (x ++ sep :: rest) = x :: split sep rest.
Proof.
  induction x as [|c x IH]; simpl; intros H.
  - unfold char_eqb. now rewrite N.eqb_refl.
  - destruct (char_eqb c sep) eqn:Hc.
    + apply char_eqb_eq in Hc. exfalso. apply H. now left.
    + rewrite IH; [reflexivity|]. intros Hin. apply H. now right.
Qed.

Lemma split_join (names : list str) :
  names <> [] -> Forall (fun n => ~ In 32%N n) names ->
  split 32%N (join (lit " ") names) = names.
Proof.
  induction names as [|x r IH]; [congruence|]. intros _ H.
  inversion H as [|? ? Hx Hr]; subst.
  destruct r as [|y r].
  - simpl. now apply split_no_sep.
  - change (join (lit " ") (x :: y :: r))
      with (x ++ 32%N :: join (lit " ") (y :: r)).
    rewrite (split_app_sep 32%N x _ Hx). f_equal.
    apply IH; [discriminate | exact Hr].
Qed.

Lemma letters_no_space (t : str) : letters t -> ~ In 32%N t.
Proof.
  intros H Hin. unfold letters in H. rewrite Forall_forall in H.
  apply H in Hin. discriminate.
Qed.

Lemma symbols_join (names : list str) :
  names <> [] -> Forall letters names ->
  symbols (join (lit " ") names)
  = match names with
    | [n] => One n
    | _ => Many names
    end.
Proof.
  intros Hne H. unfold symbols. rewrite split_join; [| exact Hne |].
  - destruct names as [|n [|m r]]; reflexivity.
  - eapply Forall_impl; [|exact H]. intros t. apply letters_no_space.
Qed.

End SortedSetFacts.

Lemma In_detect_names (s t : str) :
  In t (detect_names s) <-> maximal_run s t /\ ~ reserved t.
Proof.
  unfold detect_names, reserved.
  rewrite filter_In, In_sorted_set, findall_letters_spec, negb_true_iff.
  rewrite <- mem_In. destruct (mem (lower t) funcs); intuition congruence.
Qed.

(** C6.  Symbol detection: the names kept are exactly the maximal runs of
    ASCII letters of the input whose lowercase form is not a reserved
    function name; they come in strictly increasing order, so each once;
    the result is the default symbol x when none is left, and in
    particular when every run of letters of the input is a reserved
    name. *)
Theorem detect_symbols_spec (s : str) :
  (forall t, In t (detect_names s) <-> maximal_run s t /\ ~ reserved t)
  /\ StronglySorted str_lt (detect_names s)
  /\ detect_symbols s = match detect_names s with
                        | [] => One (lit "x")
                        | [n] => One n
                        | names => Many names
                        end
  /\ ((forall t, maximal_run s t -> reserved t) ->
      detect_symbols s = One (lit "x")).
Proof.
  assert (Hspec := In_detect_names s).
  assert (Hsym : detect_symbols s = match detect_names s with
                                    | [] => One (lit "x")
                                    | [n] => One n
                                    | names => Many names
                                    end).
  { unfold detect_symbols. destruct (detect_names s) as [|n r] eqn:Hn.
    - reflexivity.
    - rewrite symbols_join; [destruct r; reflexivity | discriminate |].
      rewrite Forall_forall. intros t Ht.
      apply Hspec in Ht. destruct Ht as [(_ & Hl & _) _]. exact Hl. }
  split; [exact Hspec|].
  split; [apply filter_sorted, sorted_set_sorted|].
  split; [exact Hsym|].
  - intros Hall. rewrite Hsym.
    destruct (detect_names s) as [|n r]; [reflexivity|].
    exfalso. assert (Hin : In n (n :: r)) by now left.
    apply Hspec in Hin. destruct Hin as [Hrun Hres]. now apply Hres, Hall.
Qed.

(** ** The narrators, for every engine *)

Section NarratorFacts.

Context {E : Engine}.

(** C7.  A solve query with no equals sign or with more than one gets the
    absent result and the single step that asks for exactly one; this
    holds whatever the engine does, so nothing is parsed or solved. *)
Theorem solve_requires_one_equals (s : str) :
  count_char 61%N s <> 1%nat ->
  solve_equation_steps s = Ret (None, [equals_message]).
Proof.
  intros H. unfold solve_equation_steps.
  pose proof (split_length 61%N (normalize s)) as Hlen.
  rewrite normalize_count_equals in Hlen.
  destruct (split 61%N (normalize s)) as [|a [|b [|c l]]]; simpl in Hlen;
    try reflexivity.
  exfalso. apply H. congruence.
Qed.

(** What the engine's integration returns is handed on as the result,
    whatever expression it is. *)
Lemma integral_steps_integrate_returns (s part : str) (v v' : option var)
    (f I : Expr) :
  unwrap_call (lit "integrate(") (normalize s) v = (part, v') ->
  sympify part = Ret f ->
  integrate f (choose_var part v') = Ret I ->
  integral_steps s v
  = Ret (Some (VExpr I),
         [lit "Integrand: " ++ pretty f;
          lit "Integrate w.r.t " ++ var_str (choose_var part v');
          lit "Result: " ++ pretty I ++ lit " + C"]).
Proof.
  intros Hu Hp Hi. unfold integral_steps.
  rewrite Hu, Hp. simpl. now rewrite Hi.
Qed.


Lemma unwrap_wrapped_example :
  unwrap_call (lit "diff(") (normalize (lit "diff(sin(x)*x, x)")) None
  = (lit "sin(x)*x", Some (VarText (lit "x"))).
Proof. vm_compute. reflexivity. Qed.

Lemma unwrap_bare_example :
  unwrap_call (lit "diff(") (normalize (lit "sin(x)*x")) None
  = (lit "sin(x)*x", None).
Proof. vm_compute. reflexivity. Qed.

Lemma choose_var_example :
  choose_var (lit "sin(x)*x") None = VarSym (lit "x").
Proof. vm_compute. reflexivity. Qed.

(** C9.  With an engine that reads the text "x" given as the variable as
    the symbol x, the wrapped form and the bare form give the same
    derivative result. *)
Theorem diff_wrapped_equals_bare :
  (forall f, diff f (VarText (lit "x")) = diff f (VarSym (lit "x"))) ->
  result_of (derivative_steps (lit "diff(sin(x)*x, x)") None)
  = result_of (derivative_steps (lit "sin(x)*x") None).
Proof.
  intros H. unfold derivative_steps.
  rewrite unwrap_wrapped_example, unwrap_bare_example, choose_var_example.
  cbn [choose_var].
  destruct (sympify (lit "sin(x)*x")) as [f | e]; [|reflexivity].
  rewrite H. destruct (diff f (VarSym (lit "x"))); reflexivity.
Qed.

End NarratorFacts.

Section Adapters.

Context {E : Engine}.

Lemma not_mode (kind : str) (m : string) :
  In (lit m) modes -> ~ In kind modes -> str_eqb kind (lit m) = false.
Proof.
  intros Hm Hk. destruct (str_eqb kind (lit m)) eqn:He; [|reflexivity].
  apply str_eqb_eq in He. subst. contradiction.
Qed.

Lemma index_dispatch_unrecognized (query kind : str) :
  ~ In kind modes -> index_dispatch query kind = Ret (None, []).
Proof.
  intros Hk. unfold index_dispatch.
  rewrite (not_mode kind "auto"), (not_mode kind "solve"),
    (not_mode kind "diff"), (not_mode kind "integrate"),
    (not_mode kind "simplify"); try assumption; try reflexivity;
    unfold modes; simpl; tauto.
Qed.

Lemma api_dispatch_unrecognized (query kind : str) :
  ~ In kind modes ->
  api_dispatch query kind
  = (val <- sympify query ;;
     n <- N val ;;
     Ret (Response (JString (to_str n)) [lit "Parsed: " ++ to_str val])).
Proof.
  intros Hk. unfold api_dispatch, mem. simpl existsb.
  rewrite (not_mode kind "auto"), (not_mode kind "solve"),
    (not_mode kind "diff"), (not_mode kind "integrate"),
    (not_mode kind "simplify"); try assumption;
    try (unfold modes; simpl; tauto).
  simpl. now rewrite andb_false_r.
Qed.

(** C3, amended.  An operation mode that is not one of the five names is
    not treated as "auto".  The page adapter runs no narrator and hands
    on the absent result with no step; the JSON adapter runs no narrator
    either and goes to parsing and numeric evaluation of the query. *)
Theorem unrecognized_mode_handling (q kind : str) :
  ~ In kind modes ->
  index POST (Some q) (Some kind) = (None, [], normalize q)
  /\ api_dispatch (normalize q) kind
     = (val <- sympify (normalize q) ;;
        n <- N val ;;
        Ret (Response (JString (to_str n)) [lit "Parsed: " ++ to_str val])).
Proof.
  intros Hk. split.
  - unfold index. simpl get_default.
    now rewrite (index_dispatch_unrecognized _ _ Hk).
  - now apply api_dispatch_unrecognized.
Qed.


(** C1, amended.  Inside a narrator a failure to parse (in each of the
    four), a failure of integration and a failure of the general solver
    in the last branch of solve are caught and turned into the absent
    result with the message as the only step; the integrate narrator
    never raises.  The narrators are not handlers of everything: a
    failure of the engine's simplification leaves the simplify narrator,
    a failure of its differentiation leaves the differentiate narrator,
    and a failure to form, simplify or expand the equation leaves the
    solve narrator, each time with the engine's exception.  What leaves a
    narrator is caught by the adapter, which hands on the absent result
    with the single step "Error processing: ..." (the page) or an error
    reply with status 500 (the JSON adapter). *)
Theorem failures_caught_by_design :
  (* failures caught inside the narrators *)
  (forall s e,
      sympify (normalize s) = Raise e ->
      simplify_steps s = Ret (None, [lit "Parsing error: " ++ exn_msg e]))
  /\ (forall s v part v' e,
         unwrap_call (lit "diff(") (normalize s) v = (part, v') ->
         sympify part = Raise e ->
         derivative_steps s v
         = Ret (None, [lit "Parsing error: " ++ exn_msg e]))
  /\ (forall s v part v' e,
         unwrap_call (lit "integrate(") (normalize s) v = (part, v') ->
         sympify part = Raise e ->
         integral_steps s v
         = Ret (None, [lit "Parsing error: " ++ exn_msg e]))
  /\ (forall s lhs rhs e,
         split 61%N (normalize s) = [lhs; rhs] ->
         sympify lhs = Raise e
         \/ ((exists l, sympify lhs = Ret l) /\ sympify rhs = Raise e) ->
         solve_equation_steps s
         = Ret (None, [lit "Parsing error: " ++ exn_msg e]))
  /\ (forall s v part v' f e,
         unwrap_call (lit "integrate(") (normalize s) v = (part, v') ->
         sympify part = Ret f ->
         integrate f (choose_var part v') = Raise e ->
         integral_steps s v
         = Ret (None, [lit "Could not integrate: " ++ exn_msg e]))
  /\ (forall eq sy steps e,
         solve eq sy = Raise e ->
         solve_general eq sy steps
         = Ret (None, [lit "Could not solve: " ++ exn_msg e]))
  /\ (forall s v, exists o, integral_steps s v = Ret o)
  (* failures that leave the narrators *)
  /\ (forall s e,
         simplify_steps s = Raise e
         <-> exists x, sympify (normalize s) = Ret x /\ simplify x = Raise e)
  /\ (forall s v e,
         derivative_steps s v = Raise e
         <-> exists f,
             sympify (fst (unwrap_call (lit "diff(") (normalize s) v)) = Ret f
             /\ diff f (choose_var
                          (fst (unwrap_call (lit "diff(") (normalize s) v))
                          (snd (unwrap_call (lit "diff(") (normalize s) v)))
                = Raise e)
  /\ (forall s lhs rhs l r e,
         split 61%N (normalize s) = [lhs; rhs] ->
         sympify lhs = Ret l -> sympify rhs = Ret r ->
         (eq <- Eq l r ;; d <- sub l r ;; poly <- simplify d ;; expand poly)
         = Raise e ->
         solve_equation_steps s = Raise e)
  (* the handlers of the adapters *)
  /\ (forall q kind e,
         index_dispatch (normalize q) kind = Raise e ->
         index POST (Some q) (Some kind)
         = (None, [lit "Error processing: " ++ exn_msg e], normalize q))
  /\ (forall q kind e,
         normalize q <> [] ->
         api_dispatch (normalize q) kind = Raise e ->
         api_solve (Some q) (Some kind) = ErrorResponse (exn_msg e) 500).
Proof.
  repeat match goal with |- _ /\ _ => split end.
  - intros s e H. unfold simplify_steps. now rewrite H.
  - intros s v part v' e Hu H. unfold derivative_steps. now rewrite Hu, H.
  - intros s v part v' e Hu H. unfold integral_steps. now rewrite Hu, H.
  - intros s lhs rhs e Hs H. unfold solve_equation_steps. rewrite Hs.
    destruct H as [H | [[l Hl] H]].
    + now rewrite H.
    + rewrite Hl, H. reflexivity.
  - intros s v part v' f e Hu Hp Hi. unfold integral_steps.
    rewrite Hu, Hp. simpl. now rewrite Hi.
  - intros eq sy steps e H. unfold solve_general. now rewrite H.
  - intros s v. unfold integral_steps.
    destruct (unwrap_call (lit "integrate(") (normalize s) v) as [part v'].
    destruct (sympify part) as [f|]; [|eexists; reflexivity].
    simpl. destruct (integrate f (choose_var part v')); simpl;
      eexists; reflexivity.
  - intros s e. unfold simplify_steps.
    destruct (sympify (normalize s)) as [x|]; simpl.
    + destruct (simplify x) as [y|] eqn:Hy; simpl; split.
      * discriminate.
      * intros [x' [Hx Hs]]. inversion Hx; subst. rewrite Hs in Hy.
        discriminate.
      * intros H. inversion H; subst. now exists x.
      * intros [x' [Hx Hs]]. inversion Hx; subst. rewrite Hs in Hy.
        now inversion Hy.
    + split; [discriminate|]. intros [x [Hx _]]. discriminate.
  - intros s v e. unfold derivative_steps.
    destruct (unwrap_call (lit "diff(") (normalize s) v) as [part v']. simpl.
    destruct (sympify part) as [f|]; simpl.
    + destruct (diff f (choose_var part v')) as [d|] eqn:Hd; simpl; split.
      * discriminate.
      * intros [f' [Hf Hs]]. inversion Hf; subst. rewrite Hs in Hd.
        discriminate.
      * intros H. inversion H; subst. now exists f.
      * intros [f' [Hf Hs]]. inversion Hf; subst. rewrite Hs in Hd.
        now inversion Hd.
    + split; [discriminate|]. intros [f [Hf _]]. discriminate.
  - intros s lhs rhs l r e Hs Hl Hr H. unfold solve_equation_steps.
    rewrite Hs, Hl, Hr. cbn [bind].
    destruct (Eq l r) as [eq|]; cbn [bind] in *; [|now inversion H].
    destruct (sub l r) as [d|]; cbn [bind] in *; [|now inversion H].
    destruct (simplify d) as [poly|]; cbn [bind] in *; [|now inversion H].
    destruct (expand poly) as [ex|]; cbn [bind] in *;
      [discriminate | now inversion H].
  - intros q kind e H. unfold index. simpl get_default. now rewrite H.
  - intros q kind e Hq H. unfold api_solve. simpl get_default.
    destruct (normalize q); [congruence|]. now rewrite H.
Qed.

End Adapters.

(** ** The narrators on the reference engine *)

Section OnReferenceEngine.

Import RefEngine.

#[local] Existing Instance engine.


(** C8.  On the reference engine, "2*x+3=7" is found to have degree 1,
    its step of coefficients reads a=2, b=-4 and holds the text "Linear
    equation", and the result is the single solution 2; "x^2-5*x+6=0" is
    found to have degree 2, with the coefficients a=1, b=-5, c=6, a step
    that holds the text "Discriminant" and gives the discriminant 1, and
    the roots 3 and 2 in that order. *)
Theorem solve_examples :
  (option_map snd (detected (lit "2*x+3=7")) = Some (DegInt 1)
   /\ result_of (solve_equation_steps (lit "2*x+3=7"))
      = Ret (Some (VList [Num (qz 2)]))
   /\ In (lit "Linear equation with a=2, b=-4")
         (steps_of (solve_equation_steps (lit "2*x+3=7")))
   /\ contains (lit "Linear equation with a=2, b=-4")
               (lit "Linear equation") = true)
  /\ (option_map snd (detected (lit "x^2-5*x+6=0")) = Some (DegInt 2)
      /\ result_of (solve_equation_steps (lit "x^2-5*x+6=0"))
         = Ret (Some (VList [Num (qz 3); Num (qz 2)]))
      /\ In (lit "Quadratic detected with a=1, b=-5, c=6")
            (steps_of (solve_equation_steps (lit "x^2-5*x+6=0")))
      /\ In (lit "Discriminant " ++ [916%N] ++ lit " = b" ++ [178%N]
             ++ lit " - 4ac = 1")
            (steps_of (solve_equation_steps (lit "x^2-5*x+6=0")))
      /\ contains (lit "Discriminant " ++ [916%N] ++ lit " = b" ++ [178%N]
                   ++ lit " - 4ac = 1")
                  (lit "Discriminant") = true).
Proof.
  split.
  - split; [vm_compute; reflexivity|].
    split; [vm_compute; reflexivity|].
    split; [|vm_compute; reflexivity].
    vm_compute. right. right. left. reflexivity.
  - split; [vm_compute; reflexivity|].
    split; [vm_compute; reflexivity|].
    split; [|split; [|vm_compute; reflexivity]].
    + vm_compute. right. right. left. reflexivity.
    + vm_compute. right. right. right. left. reflexivity.
Qed.

(** *** Inputs on which the claims as written fail *)

(** C1 as written fails: on "x+y=1" the degree in x is 1 and the list of
    coefficients of a polynomial in two symbols is refused by the engine;
    that call is outside every handler of the solve narrator, which
    raises. *)
Lemma solve_narrator_raises :
  solve_equation_steps (lit "x+y=1")
  = Raise (exn_of "PolynomialError" "multivariate polynomials not supported")
  /\ ~ (forall s, exists o, solve_equation_steps s = Ret o).
Proof.
  split; [vm_compute; reflexivity|].
  intros H. destruct (H (lit "x+y=1")) as [o Ho].
  vm_compute in Ho. discriminate.
Qed.

(** C3 as written fails: with the mode "fast" the page adapter hands on
    no result and no step for "2*x+3=7", and with "auto" the solution. *)
Lemma unrecognized_mode_not_auto :
  ~ In (lit "fast") modes
  /\ index POST (Some (lit "2*x+3=7")) (Some (lit "fast"))
     = (None, [], lit "2*x+3=7")
  /\ fst (fst (index POST (Some (lit "2*x+3=7")) (Some (lit "auto"))))
     = Some (VList [Num (qz 2)])
  /\ index POST (Some (lit "2*x+3=7")) (Some (lit "fast"))
     <> index POST (Some (lit "2*x+3=7")) (Some (lit "auto")).
Proof.
  split; [|split; [|split]].
  - vm_compute. intuition discriminate.
  - vm_compute. reflexivity.
  - vm_compute. reflexivity.
  - vm_compute. discriminate.
Qed.


(** *** The special paths and the general solver *)

(** Reduced rationals. *)







Lemma q_mul_1_l (c : Q) : Qred c = c -> q_mul (qz 1) c = c.
Proof.
  intros H. unfold q_mul. rewrite <- H at 2. apply Qred_complete.
  unfold qz. ring.
Qed.




(** Monomials. *)







(** Polynomials in normal form. *)












Lemma q_one_nonzero : q_is_zero (qz 1) = false.
Proof. reflexivity. Qed.












Lemma mono_mul_nil_l (m : monomial) : mono_mul [] m = m.
Proof. reflexivity. Qed.



















Lemma ref_sqrt_returns (e : expr) : exists sq, ref_sqrt e = Ret sq.
Proof.
  destruct e; cbn [ref_sqrt]; try (eexists; reflexivity).
  destruct (q_sqrt q); eexists; reflexivity.
Qed.










(** *** The statements at concrete inputs *)

Lemma solve_requires_one_equals_witness :
  (count_char 61%N (lit "x+1") <> 1%nat
   /\ solve_equation_steps (lit "x+1") = Ret (None, [equals_message]))
  /\ (count_char 61%N (lit "x=1=2") <> 1%nat
      /\ solve_equation_steps (lit "x=1=2") = Ret (None, [equals_message])).
Proof.
  assert (H0 : count_char 61%N (lit "x+1") <> 1%nat)
    by (vm_compute; discriminate).
  assert (H2 : count_char 61%N (lit "x=1=2") <> 1%nat)
    by (vm_compute; discriminate).
  split; (split; [assumption|]).
  - exact (solve_requires_one_equals (lit "x+1") H0).
  - exact (solve_requires_one_equals (lit "x=1=2") H2).
Defined.

Lemma diff_wrapped_equals_bare_witness :
  result_of (derivative_steps (lit "diff(sin(x)*x, x)") None)
  = result_of (derivative_steps (lit "sin(x)*x") None)
  /\ result_of (derivative_steps (lit "sin(x)*x") None)
     = Ret (Some (VExpr (Add (Mul (Fn (lit "cos") (Sym (lit "x"))) (Sym (lit "x")))
                             (Fn (lit "sin") (Sym (lit "x")))))).
Proof.
  split.
  - apply diff_wrapped_equals_bare. intros f. reflexivity.
  - vm_compute. reflexivity.
Defined.

Lemma unrecognized_mode_handling_witness :
  ~ In (lit "fast") modes
  /\ index POST (Some (lit "2*x+3=7")) (Some (lit "fast"))
     = (None, [], normalize (lit "2*x+3=7"))
  /\ api_dispatch (normalize (lit "2*x+3=7")) (lit "fast")
     = (val <- sympify (normalize (lit "2*x+3=7")) ;;
        n <- N val ;;
        Ret (Response (JString (to_str n)) [lit "Parsed: " ++ to_str val])).
Proof.
  assert (Hk : ~ In (lit "fast") modes) by (vm_compute; intuition discriminate).
  split; [exact Hk|].
  exact (unrecognized_mode_handling (lit "2*x+3=7") (lit "fast") Hk).
Defined.


End OnReferenceEngine.

(** * Further properties *)

(** ** Normalisation *)

Section NormalisationFacts.

Lemma rstrip_fixed (s : str) : no_space_first (rev s) -> rstrip s = s.
Proof.
  intros H. unfold rstrip. rewrite (lstrip_fixed _ H). apply rev_involutive.
Qed.

Lemma strip_shape (s : str) :
  no_space_first (strip s) /\ no_space_first (rev (strip s)).
Proof.
  unfold strip. split.
  - apply rstrip_keeps_first, lstrip_no_space_first.
  - unfold rstrip. rewrite rev_involutive. apply lstrip_no_space_first.
Qed.




(** X1.  Normalisation leaves a text as it is exactly when the text has
    no caret, no division sign and no white space at either end; what it
    returns is always such a text. *)
Theorem normalize_fixed_iff (s : str) :
  (normalize s = s <-> normal_text s) /\ normal_text (normalize s).
Proof.
  assert (Hout : normal_text (normalize s)).
  { destruct (normalize_clean s) as [H94 H247].
    destruct (strip_shape (replace 247%N (lit "/") (replace 94%N (lit "**") s)))
      as [Hl Hr].
    repeat split; assumption. }
  split; [|exact Hout]. split.
  - intros H. rewrite <- H. exact Hout.
  - intros (H94 & H247 & Hl & Hr). unfold normalize.
    rewrite (replace_absent _ _ _ H94), (replace_absent _ _ _ H247).
    unfold strip. rewrite (lstrip_fixed _ Hl). now apply rstrip_fixed.
Qed.


End NormalisationFacts.

(** ** Symbol detection and normalisation *)

Section DetectionFacts.

Lemma space_not_letter (c : char) : isspace c = true -> is_letter c = false.
Proof.
  intros Hs. apply not_true_iff_false. intros Hl.
  unfold isspace, is_letter, is_upper, is_lower in *.
  rewrite !orb_true_iff, !andb_true_iff, !N.leb_le, !N.eqb_eq in *. lia.
Qed.

Lemma findall_from_nonletters (post cur : str) :
  Forall (fun c => is_letter c = false) post ->
  findall_letters_from cur post = findall_letters_from cur [].
Proof.
  intros H. revert cur. induction H as [|c p Hc Hp IH]; intros cur;
    [reflexivity|].
  simpl. rewrite Hc. destruct cur; rewrite (IH []); reflexivity.
Qed.

Lemma findall_from_suffix (t post cur : str) :
  Forall (fun c => is_letter c = false) post ->
  findall_letters_from cur (t ++ post) = findall_letters_from cur t.
Proof.
  intros H. revert cur. induction t as [|x t IH]; intros cur.
  - now apply findall_from_nonletters.
  - simpl. destruct (is_letter x); [apply IH|].
    destruct cur; now rewrite IH.
Qed.

Lemma findall_prefix (pre s : str) :
  Forall (fun c => is_letter c = false) pre ->
  findall_letters (pre ++ s) = findall_letters s.
Proof.
  induction 1 as [|c p Hc Hp IH]; [reflexivity|].
  simpl app. now rewrite (findall_skip _ _ Hc).
Qed.

Lemma findall_from_block_of_nonletters (b rest cur : str) :
  b <> [] -> Forall (fun c => is_letter c = false) b ->
  findall_letters_from cur (b ++ rest)
  = match cur with [] => [] | _ => [rev cur] end
    ++ findall_letters_from [] rest.
Proof.
  intros Hne H. revert cur. induction H as [|c b Hc Hb IH]; [congruence|].
  intros cur. simpl app at 1. simpl findall_letters_from. rewrite Hc.
  destruct b as [|d b].
  - destruct cur; reflexivity.
  - rewrite (IH ltac:(discriminate) []). destruct cur; reflexivity.
Qed.

Lemma findall_from_replace (old : char) (new s cur : str) :
  is_letter old = false -> new <> [] ->
  Forall (fun c => is_letter c = false) new ->
  findall_letters_from cur (replace old new s) = findall_letters_from cur s.
Proof.
  intros Hold Hne Hnew. revert cur. induction s as [|c r IH]; intros cur;
    [reflexivity|].
  simpl replace. destruct (char_eqb c old) eqn:Hc.
  - apply char_eqb_eq in Hc. subst c.
    rewrite (findall_from_block_of_nonletters new _ cur Hne Hnew), IH.
    simpl. rewrite Hold. destruct cur; reflexivity.
  - simpl. destruct (is_letter c); [apply IH|].
    destruct cur; now rewrite IH.
Qed.

Lemma findall_strip (s : str) : findall_letters (strip s) = findall_letters s.
Proof.
  unfold strip.
  destruct (lstrip_split s) as [pre [Heq Hpre]].
  destruct (rstrip_split (lstrip s)) as [post [Heq' Hpost]].
  rewrite Heq at 2. rewrite findall_prefix.
  - rewrite Heq' at 2. unfold findall_letters.
    rewrite findall_from_suffix; [reflexivity|].
    eapply Forall_impl; [|exact Hpost]. apply space_not_letter.
  - eapply Forall_impl; [|exact Hpre]. apply space_not_letter.
Qed.

Lemma findall_normalize (s : str) :
  findall_letters (normalize s) = findall_letters s.
Proof.
  unfold normalize. rewrite findall_strip. unfold findall_letters.
  rewrite findall_from_replace;
    [| reflexivity | discriminate | repeat constructor].
  rewrite findall_from_replace;
    [| reflexivity | discriminate | repeat constructor].
  reflexivity.
Qed.

(** X2.  Symbol detection gives the same symbols on a text and on its
    normalised form: the characters normalisation adds or removes are
    not letters and never join two runs of letters. *)
Theorem detect_symbols_normalize (s : str) :
  detect_symbols (normalize s) = detect_symbols s.
Proof.
  unfold detect_symbols, detect_names. now rewrite findall_normalize.
Qed.

Lemma detect_symbols_cases (s : str) :
  detect_symbols s = match detect_names s with
                     | [] => One (lit "x")
                     | [n] => One n
                     | names => Many names
                     end.
Proof.
  unfold detect_symbols. destruct (detect_names s) as [|n r] eqn:Hn.
  - reflexivity.
  - rewrite symbols_join; [destruct r; reflexivity | discriminate |].
    rewrite Forall_forall. intros t Ht. rewrite <- Hn in Ht.
    apply In_detect_names in Ht. destruct Ht as [(_ & Hl & _) _]. exact Hl.
Qed.

Lemma detect_names_sorted (s : str) : StronglySorted str_lt (detect_names s).
Proof. apply filter_sorted, sorted_set_sorted. Qed.

(** X3.  The primary symbol of a text is x when every run of letters in
    it is a reserved name; otherwise it is the least, in the order of
    strings, of the runs of letters that are not reserved.  A tuple of
    symbols always has at least two. *)
Theorem primary_symbol_least (s : str) :
  ((forall t, maximal_run s t -> reserved t) ->
   get_primary_symbol (detect_symbols s) = lit "x")
  /\ (forall t, maximal_run s t -> ~ reserved t ->
      let p := get_primary_symbol (detect_symbols s) in
      maximal_run s p /\ ~ reserved p /\ (t = p \/ str_lt p t))
  /\ (forall l, detect_symbols s = Many l -> (2 <= List.length l)%nat).
Proof.
  rewrite detect_symbols_cases.
  pose proof (In_detect_names s) as Hspec.
  pose proof (detect_names_sorted s) as Hsort.
  destruct (detect_names s) as [|n r].
  - split; [reflexivity|]. split; [|discriminate].
    intros t Hrun Hres. exfalso. apply (proj2 (Hspec t)). tauto.
  - assert (Hn : maximal_run s n /\ ~ reserved n)
      by (apply Hspec; now left).
    assert (Hleast : forall t, maximal_run s t -> ~ reserved t ->
                               t = n \/ str_lt n t).
    { intros t Hrun Hres.
      assert (Hin : In t (n :: r)) by (apply Hspec; tauto).
      destruct Hin as [-> | Hin]; [now left | right].
      inversion Hsort as [|? ? _ Hall]; subst.
      rewrite Forall_forall in Hall. now apply Hall. }
    split; [|split].
    + intros Hall. exfalso. destruct Hn as [Hrun Hres]. now apply Hres, Hall.
    + intros t Hrun Hres.
      destruct r as [|m r]; simpl; (split; [tauto|]; split; [tauto|]);
        now apply Hleast.
    + intros l Hl. destruct r as [|m r]; [discriminate|].
      inversion Hl; subst. simpl. lia.
Qed.

End DetectionFacts.

(** ** The narrators: what they return and what leaves them *)

Section OutcomeFacts.

Context {E : Engine}.

(** X4.  Normalising a query before giving it to a narrator, as the
    adapters do, changes nothing: each narrator returns on the normalised
    query what it returns on the query. *)
Theorem narrators_ignore_prior_normalisation (s : str) (v : option var) :
  solve_equation_steps (normalize s) = solve_equation_steps s
  /\ simplify_steps (normalize s) = simplify_steps s
  /\ derivative_steps (normalize s) v = derivative_steps s v
  /\ integral_steps (normalize s) v = integral_steps s v.
Proof.
  unfold solve_equation_steps, simplify_steps, derivative_steps,
    integral_steps.
  rewrite normalize_idempotent. repeat split; reflexivity.
Qed.

Lemma first_char_differs (a b : str) :
  hd_error a <> hd_error b -> a <> b.
Proof. intros H Heq. apply H. now rewrite Heq. Qed.

Lemma solve_general_shape (eq : Expr) (s : syms) (steps steps' : list str)
    (v : option (value Expr)) :
  solve_general eq s steps = Ret (v, steps') ->
  (v = None /\ exists e, steps' = [lit "Could not solve: " ++ exn_msg e])
  \/ (exists l, v = Some (VList l)
                /\ steps' = steps ++ [lit "Using SymPy general solve";
                                      lit "Solutions: " ++ pretty_list l]).
Proof.
  unfold solve_general. destruct (solve eq s) as [l | e]; simpl; intros H;
    inversion H; subst.
  - right. exists l. split; [reflexivity|]. now rewrite <- app_assoc.
  - left. split; [reflexivity|]. now exists e.
Qed.

Lemma solve_linear_shape (eq : Expr) (s : syms) (p : Polynomial)
    (steps steps' : list str) (v : option (value Expr)) :
  solve_linear eq s p steps = Ret (v, steps') ->
  exists l rest, v = Some (VList l) /\ steps' = steps ++ rest /\ rest <> [].
Proof.
  unfold solve_linear.
  destruct (all_coeffs p) as [coeffs|]; simpl; [|discriminate].
  destruct coeffs as [|a [|b [|c l]]]; try discriminate.
  destruct (eq_zero a).
  - destruct (solve eq s) as [sol|]; simpl; [|discriminate].
    intros H. inversion H; subst. exists sol. eexists.
    split; [reflexivity|]. rewrite <- app_assoc.
    split; [reflexivity | discriminate].
  - destruct (neg b) as [nb|]; simpl; [|discriminate].
    destruct (div nb a) as [sv|]; simpl; [|discriminate].
    destruct (nsimplify sv) as [ns|]; simpl; [|discriminate].
    destruct (simplify sv) as [r|]; simpl; [|discriminate].
    intros H. inversion H; subst. exists [r]. eexists.
    split; [reflexivity|]. rewrite <- app_assoc.
    split; [reflexivity | discriminate].
Qed.

(** The steps of the degree-2 branch, with the discriminant and the
    answer to [disc < 0]. *)
Lemma solve_quadratic_steps (p : Polynomial) (steps steps' : list str)
    (v : option (value Expr)) :
  solve_quadratic p steps = Ret (v, steps') ->
  exists a b c disc negative r1 r2 x1 x2,
    all_coeffs p = Ret [a; b; c]
    /\ discriminant a b c = Ret disc
    /\ lt_zero disc = Ret negative
    /\ v = Some (VList [r1; r2])
    /\ steps' =
       steps
       ++ [lit "Quadratic detected with a=" ++ to_str a ++ lit ", b="
           ++ to_str b ++ lit ", c=" ++ to_str c;
           lit "Discriminant " ++ [916%N] ++ lit " = b" ++ [178%N]
           ++ lit " - 4ac = " ++ pretty disc]
       ++ (if negative then [complex_roots_step] else [])
       ++ [lit "Roots: x = (-b " ++ [177%N] ++ lit " " ++ [8730%N; 916%N]
           ++ lit ") / (2a) " ++ [8594%N] ++ lit " " ++ pretty x1 ++ lit ", "
           ++ pretty x2].
Proof.
  unfold solve_quadratic.
  destruct (all_coeffs p) as [coeffs|]; cbn [bind]; [|discriminate].
  destruct coeffs as [|a [|b [|c [|x l]]]]; try discriminate.
  destruct (pow b (of_int 2)) as [b2|] eqn:H1; cbn [bind]; [|discriminate].
  destruct (mul (of_int 4) a) as [fa|] eqn:H2; cbn [bind]; [|discriminate].
  destruct (mul fa c) as [fac|] eqn:H3; cbn [bind]; [|discriminate].
  destruct (sub b2 fac) as [disc|] eqn:H4; cbn [bind]; [|discriminate].
  destruct (lt_zero disc) as [negative|] eqn:H5; cbn [bind]; [|discriminate].
  destruct (sqrt disc) as [sd|]; cbn [bind]; [|discriminate].
  destruct (neg b) as [nb|]; cbn [bind]; [|discriminate].
  destruct (add nb sd) as [n1|]; cbn [bind]; [|discriminate].
  destruct (mul (of_int 2) a) as [d1|]; cbn [bind]; [|discriminate].
  destruct (div n1 d1) as [x1|]; cbn [bind]; [|discriminate].
  destruct (sub nb sd) as [n2|]; cbn [bind]; [|discriminate].
  destruct (div n2 d1) as [x2|]; cbn [bind]; [|discriminate].
  destruct (simplify x1) as [r1|]; cbn [bind]; [|discriminate].
  destruct (simplify x2) as [r2|]; cbn [bind]; [|discriminate].
  intros H. inversion H; subst.
  exists a, b, c, disc, negative, r1, r2, x1, x2.
  split; [reflexivity|].
  split; [unfold discriminant; rewrite H1; cbn [bind]; rewrite H2; cbn [bind];
          rewrite H3; cbn [bind]; exact H4|].
  split; [exact H5|]. split; [reflexivity|].
  destruct negative; rewrite <- ?app_assoc; reflexivity.
Qed.

Lemma solve_quadratic_shape (p : Polynomial) (steps steps' : list str)
    (v : option (value Expr)) :
  solve_quadratic p steps = Ret (v, steps') ->
  exists l rest, v = Some (VList l) /\ steps' = steps ++ rest /\ rest <> [].
Proof.
  intros H. apply solve_quadratic_steps in H.
  destruct H as (a & b & c & disc & negative & r1 & r2 & x1 & x2
                 & _ & _ & _ & Hv & Hs).
  exists [r1; r2]. eexists. split; [exact Hv|]. split; [exact Hs|].
  discriminate.
Qed.

(** X5.  What the solve narrator returns has one of two shapes.  Either
    the result is absent and there is exactly one step: the message about
    the equals sign, a parsing error or a failure of the general solver.
    Or the result is a list of solutions, and the steps begin with the
    original equation and its form with zero on one side, followed by at
    least one more step. *)
Theorem solve_outcome_shape (s : str) (v : option (value Expr))
    (steps : list str) :
  solve_equation_steps s = Ret (v, steps) ->
  (v = None
   /\ (steps = [equals_message]
       \/ exists e, steps = [lit "Parsing error: " ++ exn_msg e]
                    \/ steps = [lit "Could not solve: " ++ exn_msg e]))
  \/ (exists l eq ex rest,
         v = Some (VList l)
         /\ steps = (lit "Original equation: " ++ pretty eq)
                    :: (lit "Simplify to one side: " ++ pretty ex ++ lit " = 0")
                    :: rest
         /\ rest <> []).
Proof.
  unfold solve_equation_steps.
  destruct (split 61%N (normalize s)) as [|lhs [|rhs [|x l]]];
    try (intros H; inversion H; subst; left; split; [reflexivity | now left]).
  destruct (sympify lhs) as [lhs_e | e]; simpl;
    [| intros H; inversion H; subst; left; split; [reflexivity|];
       right; exists e; now left].
  destruct (sympify rhs) as [rhs_e | e]; simpl;
    [| intros H; inversion H; subst; left; split; [reflexivity|];
       right; exists e; now left].
  destruct (Eq lhs_e rhs_e) as [eq|]; simpl; [|discriminate].
  destruct (sub lhs_e rhs_e) as [d|]; simpl; [|discriminate].
  destruct (simplify d) as [poly|]; simpl; [|discriminate].
  destruct (expand poly) as [ex|]; simpl; [|discriminate].
  set (steps0 := [lit "Original equation: " ++ pretty eq;
                  lit "Simplify to one side: " ++ pretty ex ++ lit " = 0"]).
  assert (Hgen : solve_general eq (detect_symbols (normalize s)) steps0
                 = Ret (v, steps) ->
                 (v = None
                  /\ (steps = [equals_message]
                      \/ exists e, steps = [lit "Parsing error: " ++ exn_msg e]
                                   \/ steps = [lit "Could not solve: " ++ exn_msg e]))
                 \/ (exists l eq0 ex0 rest,
                        v = Some (VList l)
                        /\ steps = (lit "Original equation: " ++ pretty eq0)
                                   :: (lit "Simplify to one side: " ++ pretty ex0
                                       ++ lit " = 0") :: rest
                        /\ rest <> [])).
  { intros H. apply solve_general_shape in H.
    destruct H as [[Hv [e He]] | [l [Hv Hs]]].
    - left. split; [exact Hv|]. right. exists e. now right.
    - right. exists l, eq, ex. eexists. split; [exact Hv|].
      split; [exact Hs | discriminate]. }
  assert (Hsp : forall l rest, rest <> [] -> steps = steps0 ++ rest ->
                v = Some (VList l) ->
                exists l eq0 ex0 rest,
                  v = Some (VList l)
                  /\ steps = (lit "Original equation: " ++ pretty eq0)
                             :: (lit "Simplify to one side: " ++ pretty ex0
                                 ++ lit " = 0") :: rest
                  /\ rest <> []).
  { intros l rest Hne Hs Hv. exists l, eq, ex, rest. now repeat split. }
  destruct (detect_degree poly (detect_symbols (normalize s)))
    as [[p dg]|]; [|exact Hgen].
  destruct (deg_eqb dg 1).
  - intros H. apply solve_linear_shape in H.
    destruct H as (l & rest & Hv & Hs & Hne). right. eauto.
  - destruct (deg_eqb dg 2); [|exact Hgen].
    intros H. apply solve_quadratic_shape in H.
    destruct H as (l & rest & Hv & Hs & Hne). right. eauto.
Qed.

End OutcomeFacts.

Section MoreOutcomeFacts.

Context {E : Engine}.

Lemma split_one (sep : char) (s x : str) :
  split sep s = [x] -> s = x /\ ~ In sep x.
Proof.
  revert x. induction s as [|c r IH]; intros x; simpl.
  - intros H. inversion H; subst. split; [reflexivity | tauto].
  - destruct (char_eqb c sep) eqn:Hc.
    + intros H. inversion H as [[Hl Hr]].
      pose proof (split_length sep r) as Hlen. rewrite Hr in Hlen.
      discriminate.
    + destruct (split sep r) as [|p ps] eqn:Hs.
      * pose proof (split_length sep r) as Hlen. rewrite Hs in Hlen.
        discriminate.
      * intros H. inversion H; subst. destruct (IH p eq_refl) as [Hr Hn].
        subst r. apply char_eqb_neq in Hc. split; [reflexivity|].
        intros [Heq | Hin]; [congruence | contradiction].
Qed.

Lemma split_two (sep : char) (s lhs rhs : str) :
  split sep s = [lhs; rhs] ->
  s = lhs ++ sep :: rhs /\ ~ In sep lhs /\ ~ In sep rhs.
Proof.
  revert lhs. induction s as [|c r IH]; intros lhs; simpl; [discriminate|].
  destruct (char_eqb c sep) eqn:Hc.
  - apply char_eqb_eq in Hc. subst c. intros H. inversion H as [[Hl Hr]].
    destruct (split_one sep r rhs Hr) as [Heq Hn]. subst r.
    split; [reflexivity|]. split; [tauto | exact Hn].
  - destruct (split sep r) as [|p ps] eqn:Hs; [discriminate|].
    intros H. inversion H; subst. destruct (IH p eq_refl) as (Hr & Hl & Hrr).
    apply char_eqb_neq in Hc.
    split; [simpl; now f_equal|]. split; [|exact Hrr].
    intros [Heq | Hin]; [congruence | contradiction].
Qed.

(** X6.  The solve narrator answers with the message about the equals
    sign exactly when the query does not hold exactly one equals sign.
    With exactly one, the two sides given to the parser are the text
    before and the text after it in the normalised query. *)
Theorem equals_message_iff (s : str) :
  (solve_equation_steps s = Ret (None, [equals_message])
   <-> count_char 61%N s <> 1%nat)
  /\ (count_char 61%N s = 1%nat ->
      exists lhs rhs,
        split 61%N (normalize s) = [lhs; rhs]
        /\ normalize s = lhs ++ 61%N :: rhs
        /\ ~ In 61%N lhs /\ ~ In 61%N rhs).
Proof.
  pose proof (split_length 61%N (normalize s)) as Hlen.
  rewrite normalize_count_equals in Hlen.
  split; [split|].
  - intros H Hc. rewrite Hc in Hlen.
    destruct (split 61%N (normalize s)) as [|lhs [|rhs [|x l]]] eqn:Hs;
      try discriminate.
    unfold solve_equation_steps in H. rewrite Hs in H.
    destruct (sympify lhs) as [lhs_e | e]; simpl in H; [|inversion H].
    destruct (sympify rhs) as [rhs_e | e]; simpl in H; [|inversion H].
    destruct (Eq lhs_e rhs_e) as [eq|]; simpl in H; [|discriminate].
    destruct (sub lhs_e rhs_e) as [d|]; simpl in H; [|discriminate].
    destruct (simplify d) as [poly|]; simpl in H; [|discriminate].
    destruct (expand poly) as [ex|]; simpl in H; [|discriminate].
    assert (Hgen : forall st,
               solve_general eq (detect_symbols (normalize s)) st
               <> Ret (None, [equals_message])).
    { intros st Hg. apply solve_general_shape in Hg.
      destruct Hg as [[_ [e He]] | [l [Hv _]]]; [|discriminate].
      inversion He. }
    destruct (detect_degree poly (detect_symbols (normalize s)))
      as [[p dg]|]; [|now apply Hgen in H].
    destruct (deg_eqb dg 1).
    + apply solve_linear_shape in H. destruct H as (l & rest & Hv & _).
      discriminate.
    + destruct (deg_eqb dg 2); [|now apply Hgen in H].
      apply solve_quadratic_shape in H. destruct H as (l & rest & Hv & _).
      discriminate.
  - intros Hc. unfold solve_equation_steps.
    destruct (split 61%N (normalize s)) as [|a [|b [|c l]]]; simpl in Hlen;
      try reflexivity.
    exfalso. apply Hc. congruence.
  - intros Hc. rewrite Hc in Hlen.
    destruct (split 61%N (normalize s)) as [|lhs [|rhs [|x l]]] eqn:Hs;
      try discriminate.
    exists lhs, rhs. split; [reflexivity|]. now apply split_two.
Qed.

(** X7.  What leaves the other narrators.  The integrate narrator never
    raises.  The simplify narrator raises exactly when the text parses
    and the engine's simplification raises; the differentiate narrator
    exactly when the expression parses and the engine's differentiation
    raises.  The exception that leaves is the engine's. *)
Theorem narrator_escapes (s : str) (v : option var) (e : exn) :
  (exists o, integral_steps s v = Ret o)
  /\ (simplify_steps s = Raise e
      <-> exists x, sympify (normalize s) = Ret x /\ simplify x = Raise e)
  /\ (derivative_steps s v = Raise e
      <-> exists f,
          sympify (fst (unwrap_call (lit "diff(") (normalize s) v)) = Ret f
          /\ diff f (choose_var
                       (fst (unwrap_call (lit "diff(") (normalize s) v))
                       (snd (unwrap_call (lit "diff(") (normalize s) v)))
             = Raise e).
Proof.
  split; [|split].
  - unfold integral_steps.
    destruct (unwrap_call (lit "integrate(") (normalize s) v) as [part v'].
    destruct (sympify part) as [f|]; [|eexists; reflexivity].
    simpl. destruct (integrate f (choose_var part v')); simpl;
      eexists; reflexivity.
  - unfold simplify_steps.
    destruct (sympify (normalize s)) as [x|]; simpl.
    + destruct (simplify x) as [r|] eqn:Hr; simpl; split.
      * discriminate.
      * intros [x' [Hx Hs]]. inversion Hx; subst. rewrite Hs in Hr.
        now inversion Hr.
      * intros H. inversion H; subst. now exists x.
      * intros [x' [Hx Hs]]. inversion Hx; subst. rewrite Hs in Hr.
        now inversion Hr.
    + split; [discriminate|]. intros [x [Hx _]]. discriminate.
  - unfold derivative_steps.
    destruct (unwrap_call (lit "diff(") (normalize s) v) as [part v']. simpl.
    destruct (sympify part) as [f|]; simpl.
    + destruct (diff f (choose_var part v')) as [d|] eqn:Hd; simpl; split.
      * discriminate.
      * intros [f' [Hf Hs]]. inversion Hf; subst. rewrite Hs in Hd.
        now inversion Hd.
      * intros H. inversion H; subst. now exists f.
      * intros [f' [Hf Hs]]. inversion Hf; subst. rewrite Hs in Hd.
        now inversion Hd.
    + split; [discriminate|]. intros [f [Hf _]]. discriminate.
Qed.

(** X8.  What the simplify, differentiate and integrate narrators return
    has one of two shapes: the result is absent and the only step is the
    message of the failure; or the result is an expression and the last
    step shows that very expression, after the steps that show what was
    parsed. *)
Theorem expression_outcome_shape (s : str) (v : option var)
    (r : option (value Expr)) (steps : list str) :
  (simplify_steps s = Ret (r, steps) ->
   (r = None /\ exists e, steps = [lit "Parsing error: " ++ exn_msg e])
   \/ exists x y, r = Some (VExpr y)
                  /\ steps = [lit "Original: " ++ pretty x;
                              lit "Simplified: " ++ pretty y])
  /\ (derivative_steps s v = Ret (r, steps) ->
      (r = None /\ exists e, steps = [lit "Parsing error: " ++ exn_msg e])
      \/ exists f d w, r = Some (VExpr d)
                       /\ steps = [lit "Function: " ++ pretty f;
                                   lit "Differentiate w.r.t " ++ var_str w;
                                   lit "Result: " ++ pretty d])
  /\ (integral_steps s v = Ret (r, steps) ->
      (r = None
       /\ exists e, steps = [lit "Parsing error: " ++ exn_msg e]
                    \/ steps = [lit "Could not integrate: " ++ exn_msg e])
      \/ exists f I w, r = Some (VExpr I)
                       /\ steps = [lit "Integrand: " ++ pretty f;
                                   lit "Integrate w.r.t " ++ var_str w;
                                   lit "Result: " ++ pretty I ++ lit " + C"]).
Proof.
  split; [|split].
  - unfold simplify_steps.
    destruct (sympify (normalize s)) as [x | e]; simpl.
    + destruct (simplify x) as [y|]; simpl; [|discriminate].
      intros H. inversion H; subst. right. now exists x, y.
    + intros H. inversion H; subst. left. split; [reflexivity | now exists e].
  - unfold derivative_steps.
    destruct (unwrap_call (lit "diff(") (normalize s) v) as [part v'].
    destruct (sympify part) as [f | e]; simpl.
    + destruct (diff f (choose_var part v')) as [d|]; simpl; [|discriminate].
      intros H. inversion H; subst. right.
      now exists f, d, (choose_var part v').
    + intros H. inversion H; subst. left. split; [reflexivity | now exists e].
  - unfold integral_steps.
    destruct (unwrap_call (lit "integrate(") (normalize s) v) as [part v'].
    destruct (sympify part) as [f | e]; simpl.
    + destruct (integrate f (choose_var part v')) as [I | e]; simpl;
        intros H; inversion H; subst.
      * right. now exists f, I, (choose_var part v').
      * left. split; [reflexivity|]. exists e. now right.
    + intros H. inversion H; subst. left. split; [reflexivity|].
      exists e. now left.
Qed.

End MoreOutcomeFacts.

Section QuadraticNote.

Context {E : Engine}.

(** X9.  In the degree-2 path the step about complex roots is among the
    steps exactly when the engine answers that the discriminant is below
    zero; in either case the two roots are computed and returned. *)
Theorem complex_note_iff (s : str) (eq : Expr) (p : Polynomial)
    (v : option (value Expr)) (steps : list str) :
  detected s = Some (eq, p, DegInt 2) ->
  solve_equation_steps s = Ret (v, steps) ->
  exists a b c disc r1 r2,
    all_coeffs p = Ret [a; b; c]
    /\ discriminant a b c = Ret disc
    /\ (In complex_roots_step steps <-> lt_zero disc = Ret true)
    /\ v = Some (VList [r1; r2]).
Proof.
  unfold detected, solve_equation_steps.
  destruct (split 61%N (normalize s)) as [|lhs [|rhs [|x l]]]; try discriminate.
  destruct (sympify lhs) as [lhs_e|]; simpl; [|discriminate].
  destruct (sympify rhs) as [rhs_e|]; simpl; [|discriminate].
  destruct (Eq lhs_e rhs_e) as [eq'|]; simpl; [|discriminate].
  destruct (sub lhs_e rhs_e) as [df|]; simpl; [|discriminate].
  destruct (simplify df) as [poly|]; simpl; [|discriminate].
  destruct (expand poly) as [ex|]; simpl; [|discriminate].
  destruct (detect_degree poly (detect_symbols (normalize s)))
    as [[p' d']|]; [|discriminate].
  intros Hd Hs. inversion Hd; subst eq' p' d'. clear Hd. simpl in Hs.
  apply solve_quadratic_steps in Hs.
  destruct Hs as (a & b & c & disc & negative & r1 & r2 & x1 & x2
                  & Hc & Hdisc & Hneg & Hv & Hs).
  exists a, b, c, disc, r1, r2.
  split; [exact Hc|]. split; [exact Hdisc|]. split; [|exact Hv].
  rewrite Hs, Hneg. rewrite !in_app_iff. cbn [In].
  assert (Hnot : forall t : str,
             hd_error t <> Some 916%N -> t = complex_roots_step -> False).
  { intros t Ht Heq. apply Ht. now rewrite Heq. }
  destruct negative; split.
  - intros _. reflexivity.
  - intros _. right. right. left. left. reflexivity.
  - intros H. cbn [In] in H.
    repeat match goal with
           | H : _ \/ _ |- _ => destruct H as [H | H]
           | H : False |- _ => contradiction
           | H : _ = complex_roots_step |- _ =>
               exfalso; revert H; apply Hnot; vm_compute; discriminate
           end.
  - discriminate.
Qed.

End QuadraticNote.

(** ** The call forms *)

Section CallForms.

Lemma lower_app (a b : str) : lower (a ++ b) = lower a ++ lower b.
Proof. unfold lower. apply flat_map_app. Qed.

Lemma startswith_app (p r : str) : startswith (p ++ r) p = true.
Proof.
  induction p as [|c p IH]; [destruct r; reflexivity|]. simpl.
  unfold char_eqb. now rewrite N.eqb_refl, IH.
Qed.

Lemma skipn_prefix (p r : str) : skipn (List.length p) (p ++ r) = r.
Proof. induction p as [|c p IH]; [reflexivity | exact IH]. Qed.

Lemma strip_fixed (s : str) :
  no_space_first s -> no_space_first (rev s) -> strip s = s.
Proof.
  intros Hl Hr. unfold strip. rewrite (lstrip_fixed _ Hl).
  unfold rstrip. rewrite (lstrip_fixed _ Hr). apply rev_involutive.
Qed.

Lemma unwrap_wrapped (pre inner : str) (c : char) (v : option var) :
  pre = lit "diff(" \/ pre = lit "integrate(" ->
  isspace c = false ->
  unwrap_call pre (pre ++ inner ++ [c]) v
  = match split 44%N inner with
    | expr_part :: v' :: _ => (expr_part, Some (VarText (strip v')))
    | expr_part :: [] => (expr_part, None)
    | [] => (pre ++ inner ++ [c], v)
    end.
Proof.
  intros Hpre Hc. unfold unwrap_call.
  assert (Hs : strip (pre ++ inner ++ [c]) = pre ++ inner ++ [c]).
  { apply strip_fixed.
    - destruct Hpre; subst; reflexivity.
    - rewrite !rev_app_distr. simpl. exact Hc. }
  rewrite Hs, lower_app.
  replace (lower pre) with pre by (destruct Hpre; subst; reflexivity).
  rewrite startswith_app. unfold slice_to_last.
  rewrite skipn_prefix, removelast_last. reflexivity.
Qed.

(** X10.  In a call form [diff(...)] or [integrate(...)] the expression
    is the text between the opening parenthesis and the first comma, and
    the variable is the text between the first and the second comma
    without the white space around it; further arguments are ignored.
    Without a comma there is no variable, whatever variable the caller
    passed.  The last character is dropped without being looked at. *)
Theorem wrapped_call_parts (pre e w rest : str) (c : char) (v : option var) :
  pre = lit "diff(" \/ pre = lit "integrate(" ->
  isspace c = false -> ~ In 44%N e -> ~ In 44%N w ->
  unwrap_call pre (pre ++ e ++ [c]) v = (e, None)
  /\ unwrap_call pre (pre ++ (e ++ 44%N :: w) ++ [c]) v
     = (e, Some (VarText (strip w)))
  /\ unwrap_call pre (pre ++ (e ++ 44%N :: w ++ 44%N :: rest) ++ [c]) v
     = (e, Some (VarText (strip w))).
Proof.
  intros Hpre Hc He Hw. rewrite !(unwrap_wrapped _ _ _ _ Hpre Hc).
  rewrite (split_no_sep _ _ He).
  rewrite !(split_app_sep _ _ _ He).
  rewrite (split_no_sep _ _ Hw), (split_app_sep _ _ _ Hw).
  repeat split; reflexivity.
Qed.

End CallForms.

(** ** The adapters *)

Section AdapterFacts.

Context {E : Engine}.

Lemma startswith_contains (s p : str) :
  startswith s p = true -> contains s p = true.
Proof. intros H. destruct s; cbn [contains]; now rewrite H. Qed.

Lemma diff_cue_short (query : str) :
  (startswith (lower query) (lit "diff") || contains (lower query) (lit "d/d"))
  = diff_cue query.
Proof.
  unfold diff_cue. cbv zeta.
  destruct (startswith (lower query) (lit "diff")); [reflexivity|].
  destruct (startswith (lower query) (lit "d/d")) eqn:H; [|reflexivity].
  simpl. now apply startswith_contains.
Qed.

Lemma simplify_cue_other_order (query : str) :
  (startswith (lower query) (lit "simplify")
   || contains (lower query) (lit "simplify") || has_char query 47%N)
  = simplify_cue query.
Proof.
  unfold simplify_cue. cbv zeta.
  destruct (startswith (lower query) (lit "simplify")),
    (contains (lower query) (lit "simplify")), (has_char query 47%N);
    reflexivity.
Qed.

Ltac literal_tests :=
  repeat match goal with
         | |- context [mem (lit ?k) ?l] =>
             let b := eval vm_compute in (mem (lit k) l) in
             change (mem (lit k) l) with b
         | |- context [str_eqb (lit ?k) (lit ?m)] =>
             let b := eval vm_compute in (str_eqb (lit k) (lit m)) in
             change (str_eqb (lit k) (lit m)) with b
         end.

Ltac same_narrator m :=
  destruct m as [[? ?]|]; reflexivity.

(** X11.  In the auto mode both adapters choose the same narrator: when
    the query holds one of the cues, the JSON adapter's reply is made of
    the outcome of the narrator the page adapter runs.  When it holds
    none, the JSON adapter parses and evaluates the query. *)
Theorem api_auto_agrees_with_index (q : str) :
  (has_cue q = true ->
   api_dispatch q (lit "auto")
   = (o <- index_auto q ;; reply_of (solve_cue q) o))
  /\ (has_cue q = false -> api_dispatch q (lit "auto") = api_evaluate q).
Proof.
  unfold api_dispatch, index_auto, has_cue, solve_cue, api_evaluate.
  literal_tests. cbn [andb].
  rewrite diff_cue_short, simplify_cue_other_order, !andb_true_r.
  fold (diff_cue q). fold (integrate_cue q). fold (simplify_cue q).
  destruct (has_char q 61%N); cbn [orb].
  - split; [|discriminate]. intros _. unfold reply_of.
    destruct (solve_equation_steps q) as [[sol st]|]; reflexivity.
  - destruct (diff_cue q); cbn [orb].
    + split; [|discriminate]. intros _. unfold reply_of.
      destruct (derivative_steps q None) as [[out st]|]; reflexivity.
    + destruct (integrate_cue q); cbn [orb].
      * split; [|discriminate]. intros _. unfold reply_of.
        destruct (integral_steps q None) as [[out st]|]; reflexivity.
      * destruct (simplify_cue q).
        -- split; [|discriminate]. intros _. unfold reply_of.
           destruct (simplify_steps q) as [[out st]|]; reflexivity.
        -- split; [discriminate | reflexivity].
Qed.




End AdapterFacts.

Section EquationReply.

Context {E : Engine}.

Lemma solve_result_list (s : str) (v : option (value Expr)) (steps : list str) :
  solve_equation_steps s = Ret (v, steps) ->
  v = None \/ exists l, v = Some (VList l).
Proof.
  unfold solve_equation_steps.
  destruct (split 61%N (normalize s)) as [|lhs [|rhs [|x l]]];
    try (intros H; inversion H; now left).
  destruct (sympify lhs) as [lhs_e|]; simpl;
    [| intros H; inversion H; now left].
  destruct (sympify rhs) as [rhs_e|]; simpl;
    [| intros H; inversion H; now left].
  destruct (Eq lhs_e rhs_e) as [eq|]; simpl; [|discriminate].
  destruct (sub lhs_e rhs_e) as [d|]; simpl; [|discriminate].
  destruct (simplify d) as [poly|]; simpl; [|discriminate].
  destruct (expand poly) as [ex|]; simpl; [|discriminate].
  assert (Hgen : forall st,
             solve_general eq (detect_symbols (normalize s)) st
             = Ret (v, steps) ->
             v = None \/ exists l, v = Some (VList l)).
  { intros st H. apply solve_general_shape in H.
    destruct H as [[Hv _] | [l [Hv _]]]; [now left | right; eauto]. }
  destruct (detect_degree poly (detect_symbols (normalize s)))
    as [[p dg]|]; [|apply Hgen].
  destruct (deg_eqb dg 1).
  - intros H. apply solve_linear_shape in H.
    destruct H as (l & _ & Hv & _). right. eauto.
  - destruct (deg_eqb dg 2); [|apply Hgen].
    intros H. apply solve_quadratic_shape in H.
    destruct H as (l & _ & Hv & _). right. eauto.
Qed.

(** X14.  For a query that holds an equals sign, in the mode "auto" or
    "solve", the JSON adapter replies with the steps of the solve
    narrator run on that query, and with the solutions as texts, or null
    when the result is absent or the list of solutions is empty; turning
    the result into JSON never fails.  When the narrator raises, the
    reply is the error with status 500. *)
Theorem api_solve_equation_reply (q kind : str) :
  In 61%N q -> kind = lit "auto" \/ kind = lit "solve" ->
  api_solve (Some q) (Some kind)
  = match solve_equation_steps q with
    | Ret (sol, steps) => Response (solutions_json sol) steps
    | Raise e => ErrorResponse (exn_msg e) 500
    end.
Proof.
  intros Hq Hk. unfold api_solve. cbn [get_default].
  assert (Hin : has_char (normalize q) 61%N = true).
  { unfold has_char. apply existsb_exists. exists 61%N.
    split; [|reflexivity].
    pose proof (normalize_count_equals q) as Hc.
    destruct (in_dec N.eq_dec 61%N (normalize q)) as [Hi | Hn]; [exact Hi|].
    exfalso. rewrite (count_char_absent _ _ Hn) in Hc.
    assert (count_char 61%N q <> O); [|congruence].
    clear - Hq. unfold count_char. induction q as [|c r IH]; [contradiction|].
    destruct Hq as [-> | Hq]; [simpl; discriminate|].
    cbn [filter]. destruct (char_eqb 61%N c);
      [cbn [List.length]; discriminate | now apply IH]. }
  destruct (normalize q) as [|c r] eqn:Hn; [discriminate|].
  rewrite <- Hn in *. unfold api_dispatch. rewrite Hin.
  replace (mem kind [lit "auto"; lit "solve"]) with true
    by (destruct Hk; subst; reflexivity).
  cbn [andb].
  replace (solve_equation_steps (normalize q)) with (solve_equation_steps q)
    by (unfold solve_equation_steps; now rewrite normalize_idempotent).
  destruct (solve_equation_steps q) as [[sol steps]|] eqn:Hs; [|reflexivity].
  cbn [bind]. apply solve_result_list in Hs.
  destruct Hs as [-> | [l ->]]; [reflexivity|].
  destruct l; reflexivity.
Qed.

End EquationReply.

(** ** The further properties at concrete inputs *)

Section FurtherOnReferenceEngine.

Import RefEngine.

#[local] Existing Instance engine.

Lemma solve_outcome_shape_witness :
  exists l eq ex rest,
    result_of (solve_equation_steps (lit "2*x+3=7")) = Ret (Some (VList l))
    /\ steps_of (solve_equation_steps (lit "2*x+3=7"))
       = (lit "Original equation: " ++ pretty eq)
         :: (lit "Simplify to one side: " ++ pretty ex ++ lit " = 0") :: rest
    /\ rest <> [].
Proof.
  destruct (solve_outcome_shape (E:=engine) (lit "2*x+3=7")
              (Some (VList [Num (qz 2)]))
              (steps_of (solve_equation_steps (lit "2*x+3=7"))))
    as [[Hv _] | (l & eq & ex & rest & Hv & Hs & Hne)].
  - vm_compute. reflexivity.
  - discriminate.
  - exists l, eq, ex, rest. split; [|split; assumption].
    rewrite <- Hv. vm_compute. reflexivity.
Defined.

Lemma complex_note_iff_witness :
  exists a b c disc r1 r2,
    all_coeffs (PUni (lit "x") [qz 1; qz 0; qz 1]) = Ret [a; b; c]
    /\ discriminant a b c = Ret disc
    /\ (In complex_roots_step
           (steps_of (solve_equation_steps (lit "x^2+1=0")))
        <-> lt_zero disc = Ret true)
    /\ result_of (solve_equation_steps (lit "x^2+1=0"))
       = Ret (Some (VList [r1; r2])).
Proof.
  destruct (complex_note_iff (E:=engine) (lit "x^2+1=0")
              (Rel (Add (Pow (Sym (lit "x")) (Num (qz 2))) (Num (qz 1)))
                   (Num (qz 0)))
              (PUni (lit "x") [qz 1; qz 0; qz 1])
              (match result_of (solve_equation_steps (lit "x^2+1=0")) with
               | Ret v => v
               | Raise _ => None
               end)
              (steps_of (solve_equation_steps (lit "x^2+1=0"))))
    as (a & b & c & disc & r1 & r2 & Hc & Hd & Hn & Hv).
  - vm_compute. reflexivity.
  - vm_compute. reflexivity.
  - exists a, b, c, disc, r1, r2.
    split; [exact Hc|]. split; [exact Hd|]. split; [exact Hn|].
    rewrite <- Hv. vm_compute. reflexivity.
Defined.

Lemma wrapped_call_parts_witness :
  unwrap_call (lit "diff(") (lit "diff(sin(x)*x)") None
  = (lit "sin(x)*x", None)
  /\ unwrap_call (lit "diff(") (lit "diff(sin(x)*x, x)") None
     = (lit "sin(x)*x", Some (VarText (lit "x")))
  /\ unwrap_call (lit "diff(") (lit "diff(sin(x)*x, x,2)") None
     = (lit "sin(x)*x", Some (VarText (lit "x"))).
Proof.
  apply (wrapped_call_parts (lit "diff(") (lit "sin(x)*x") (lit " x") (lit "2")
           41%N None).
  - now left.
  - reflexivity.
  - vm_compute. intuition discriminate.
  - vm_compute. intuition discriminate.
Defined.


Lemma api_solve_equation_reply_witness :
  api_solve (Some (lit " 2*x+3=7 ")) (Some (lit "auto"))
  = Response (JStrings [lit "2"])
             (steps_of (solve_equation_steps (lit "2*x+3=7"))).
Proof.
  rewrite (api_solve_equation_reply (E:=engine) (lit " 2*x+3=7 ") (lit "auto")).
  - vm_compute. reflexivity.
  - vm_compute. tauto.
  - now left.
Defined.

End FurtherOnReferenceEngine.
